(** * UrBackup image plugin: the block device and its readahead cache

    A shallow embedding of [fsimageplugin/filesystem.cpp]: the bitmap
    presence test, the pool of idle block buffers, the retrying device
    read, the direct read path and the readahead thread together with
    the callers of [getBlock].

    Conventions.
    - [int64] values are [Z]; the casts to [size_t] and [_u32] are written
      out with their wrap-around.
    - A [char*] is [NULL] or the address of a block buffer; the heap keeps
      the next fresh address, the addresses handed to [delete[]] and the
      bytes written to each buffer.
    - [std::vector] is a list whose back is the end of the list;
      [std::map<int64, char*>] is an association list kept in ascending
      key order, the order its iterators traverse.
    - [getBitmap()], [getBlocksize()] and [getSize()] are pure virtual in
      the source; they are the section variables [bitmap], [blocksize]
      and [size].
    - [IFile] is an interface of the server; the device is a simulated
      file that delivers, at each [Read], at most the number of bytes its
      plan allows.
    - The readahead thread and the threads inside [getBlock] are a
      machine of control points over the shared object, with the mutex
      explicit.  A thread blocked on a condition moves again only after a
      [notify_all] on that condition.  Undefined behaviour (a read outside
      the bitmap, a write through a null pointer) stops the thread that
      meets it. *)

From Stdlib Require Import ZArith List Bool Lia.
Import ListNotations.
Open Scope Z_scope.

(** ** Constants of the anonymous namespace *)

Definition max_idle_buffers : Z := 64.
Definition readahead_num_blocks : Z := 5120.
Definition readahead_low_level_blocks : Z := readahead_num_blocks / 2.

(** ** Machine integers

    [size_t] has 64 bits, [_u32] and [int] have 32. *)

Definition to_size_t (z : Z) : Z := z mod 2 ^ 64.
Definition to_u32 (z : Z) : Z := z mod 2 ^ 32.
Definition int_bits : Z := 32.

(** ** Pointers and the heap *)

Inductive char_ptr : Type :=
| NULL : char_ptr
| Buf : nat -> char_ptr.

Definition char_ptr_eqb (p q : char_ptr) : bool :=
  match p, q with
  | NULL, NULL => true
  | Buf a, Buf b => Nat.eqb a b
  | _, _ => false
  end.

Definition is_null (p : char_ptr) : bool :=
  match p with NULL => true | Buf _ => false end.

(** ** The device behind [IFile] *)

Record IFile : Type := mkIFile {
  file_data : list Z;        (* the bytes of the device *)
  file_pos : Z;              (* the current offset *)
  seek_fails : Z -> bool;    (* offsets the device refuses to seek to *)
  read_plan : list Z;        (* bytes the next Read calls can deliver *)
  read_calls : nat           (* number of Read calls issued so far *)
}.

Definition Seek (pos : Z) (f : IFile) : bool * IFile :=
  if seek_fails f pos then (false, f)
  else (true, mkIFile (file_data f) pos (seek_fails f) (read_plan f) (read_calls f)).

(** [Read(buf, n)]: the bytes delivered, at most [n], at most what the
    plan allows for this call and at most what is left of the device. *)
Definition Read (n : Z) (f : IFile) : list Z * IFile :=
  let allowed := match read_plan f with [] => 0 | k :: _ => k end in
  let got := firstn (Z.to_nat (Z.min n allowed))
                    (skipn (Z.to_nat (file_pos f)) (file_data f)) in
  (got, mkIFile (file_data f) (file_pos f + Z.of_nat (length got))
                (seek_fails f) (tl (read_plan f)) (S (read_calls f))).

(** ** The state of a [Filesystem] object *)

Record Filesystem : Type := mkFilesystem {
  dev : IFile;
  has_error : bool;
  buffers : list char_ptr;         (* std::vector<char*> buffers *)
  readahead_thread : bool;         (* readahead_thread.get()!=NULL *)
  next_addr : nat;                 (* heap: next address of new char[] *)
  deleted : list nat;              (* heap: addresses given to delete[] *)
  contents : nat -> list Z;        (* heap: bytes stored in each buffer *)
  waited_ms : Z                    (* total of Server->wait *)
}.

Definition set_dev (d : IFile) (fs : Filesystem) : Filesystem :=
  mkFilesystem d (has_error fs) (buffers fs) (readahead_thread fs)
               (next_addr fs) (deleted fs) (contents fs) (waited_ms fs).

Definition set_has_error (b : bool) (fs : Filesystem) : Filesystem :=
  mkFilesystem (dev fs) b (buffers fs) (readahead_thread fs)
               (next_addr fs) (deleted fs) (contents fs) (waited_ms fs).

Definition set_buffers (l : list char_ptr) (fs : Filesystem) : Filesystem :=
  mkFilesystem (dev fs) (has_error fs) l (readahead_thread fs)
               (next_addr fs) (deleted fs) (contents fs) (waited_ms fs).

Definition Server_wait (ms : Z) (fs : Filesystem) : Filesystem :=
  mkFilesystem (dev fs) (has_error fs) (buffers fs) (readahead_thread fs)
               (next_addr fs) (deleted fs) (contents fs) (waited_ms fs + ms).

(** [new char[getBlocksize()]] *)
Definition new_buffer (fs : Filesystem) : char_ptr * Filesystem :=
  (Buf (next_addr fs),
   mkFilesystem (dev fs) (has_error fs) (buffers fs) (readahead_thread fs)
                (S (next_addr fs)) (deleted fs) (contents fs) (waited_ms fs)).

(** [delete[] buf] *)
Definition delete_buffer (p : char_ptr) (fs : Filesystem) : Filesystem :=
  match p with
  | NULL => fs
  | Buf a =>
      mkFilesystem (dev fs) (has_error fs) (buffers fs) (readahead_thread fs)
                   (next_addr fs) (a :: deleted fs) (contents fs) (waited_ms fs)
  end.

(** Bytes [data] stored at the start of buffer [p]; the rest of the buffer
    keeps what it held. *)
Definition store (p : char_ptr) (data : list Z) (fs : Filesystem) : Filesystem :=
  match p with
  | NULL => fs
  | Buf a =>
      mkFilesystem (dev fs) (has_error fs) (buffers fs) (readahead_thread fs)
                   (next_addr fs) (deleted fs)
                   (fun b => if Nat.eqb b a
                             then data ++ skipn (length data) (contents fs a)
                             else contents fs b)
                   (waited_ms fs)
  end.

(** The constructor [Filesystem(IFile *pDev, bool read_ahead)]. *)
Definition Filesystem_new (pDev : IFile) (read_ahead : bool) : Filesystem :=
  mkFilesystem pDev false [] read_ahead 0 [] (fun _ => []) 0.

(** [hasError()] *)
Definition hasError (fs : Filesystem) : bool := has_error fs.

(** ** The buffer pool: [getBuffer] and [releaseBuffer] *)

Definition getBuffer (fs : Filesystem) : char_ptr * Filesystem :=
  match buffers fs with
  | [] => new_buffer fs
  | _ :: _ =>
      let ret := last (buffers fs) NULL in
      (ret, set_buffers (removelast (buffers fs)) fs)
  end.

Definition releaseBuffer (buf : char_ptr) (fs : Filesystem) : Filesystem :=
  if Z.of_nat (length (buffers fs)) <? max_idle_buffers
  then set_buffers (buffers fs ++ [buf]) fs
  else delete_buffer buf fs.

Inductive pool_call : Type :=
| Acquire : pool_call
| Release : char_ptr -> pool_call.

Definition pool_step (fs : Filesystem) (c : pool_call) : Filesystem :=
  match c with
  | Acquire => snd (getBuffer fs)
  | Release p => releaseBuffer p fs
  end.

Definition pool_run (calls : list pool_call) (fs : Filesystem) : Filesystem :=
  fold_left pool_step calls fs.

Definition idle_count (fs : Filesystem) : Z := Z.of_nat (length (buffers fs)).

Section Image.

(** The image behind the pure virtual methods of [Filesystem]. *)
Variable bitmap : list Z.     (* getBitmap(): one entry per byte *)
Variable blocksize : Z.       (* getBlocksize() *)
Variable size : Z.            (* getSize() *)

(** [getSize()/getBlocksize()], the number of addressable blocks; the
    division traps when the block size is zero, and there is no result. *)
Definition total_blocks : option Z :=
  if blocksize =? 0 then None else Some (Z.quot size blocksize).

(** ** The presence test

    Lines 290-298 of [hasBlock], repeated at 305-313 in [readBlock]:
    [bitmap[pBlock/8] & (1<<pBlock%8)] with both operands cast to
    [size_t].  Neither function compares [pBlock] with the number of
    blocks.  [None] stands for undefined behaviour: a read outside the
    bitmap, or a shift of an [int] by its width or more. *)
Definition has_bit (pBlock : Z) : option bool :=
  let bitmap_byte := to_size_t (Z.quot pBlock 8) in
  let bitmap_bit := to_size_t (Z.rem pBlock 8) in
  if bitmap_byte <? Z.of_nat (length bitmap) then
    let b := nth (Z.to_nat bitmap_byte) bitmap 0 in
    if bitmap_bit <? int_bits
    then Some (0 <? Z.land b (Z.shiftl 1 bitmap_bit))
    else None
  else None.

Definition hasBlock (pBlock : Z) : option bool := has_bit pBlock.

(** ** [readFromDev]

    [acc] is the content of [buf[0..rc)]: every [Read] is given [buf+rc]
    and appends there.  [fuel] bounds the iterations of the [while]; the
    counter [tries] ends the loop long before 32 iterations. *)
Fixpoint readFromDev_loop (fuel : nat) (bsize rc tries : Z) (acc : list Z)
         (fs : Filesystem) : option (bool * list Z * Filesystem) :=
  if rc <? bsize then
    match fuel with
    | O => None
    | S fuel' =>
        let fs1 := Server_wait 200 fs in
        let '(got, d) := Read (to_u32 (bsize - rc)) (dev fs1) in
        let fs2 := set_dev d fs1 in
        let rc' := to_u32 (rc + Z.of_nat (length got)) in
        let tries' := tries - 1 in
        if tries' <? 0 then Some (false, acc ++ got, fs2)
        else readFromDev_loop fuel' bsize rc' tries' (acc ++ got) fs2
    end
  else Some (true, acc, fs).

Definition readFromDev (buf : char_ptr) (bsize : Z) (fs : Filesystem)
  : option (bool * Filesystem) :=
  if is_null buf then None    (* Read would write through a null pointer *)
  else
    let tries := 20 in
    let '(got, d) := Read bsize (dev fs) in
    let rc := to_u32 (Z.of_nat (length got)) in
    match readFromDev_loop 32 bsize rc tries got (set_dev d fs) with
    | None => None
    | Some (ok, data, fs') => Some (ok, store buf data fs')
    end.

(** ** [readBlock]

    The call either returns a pointer, or hands over to
    [readahead_thread->getBlock(pBlock)], whose steps are those of the
    readahead machine below, or is undefined. *)
Inductive readBlock_result : Type :=
| RB_return : char_ptr -> Filesystem -> readBlock_result
| RB_getBlock : Z -> readBlock_result
| RB_undefined : readBlock_result.

Definition readBlock (pBlock : Z) (fs : Filesystem) : readBlock_result :=
  match has_bit pBlock with
  | None => RB_undefined
  | Some false => RB_return NULL fs
  | Some true =>
      if negb (readahead_thread fs) then
        let '(b, d) := Seek (pBlock * blocksize) (dev fs) in
        let fs := set_dev d fs in
        if negb b then RB_return NULL (set_has_error true fs)
        else
          let '(buf, fs) := getBuffer fs in
          match readFromDev buf (to_u32 blocksize) fs with
          | None => RB_undefined
          | Some (false, fs) => RB_return NULL (set_has_error true fs)
          | Some (true, fs) => RB_return buf fs
          end
      else RB_getBlock pBlock
  end.

(** ** [readBlocks]

    [dests] holds the bytes of the caller's destination buffers, the
    parameter that shadows the pool; [memcpy(buffers[currbuf]+buffer_offset,
    buf, blocksize)] overwrites [blocksize] bytes of entry [currbuf].

    [memcpy(dst+off, src, n)]: there is no result when the [n] bytes do
    not fit into the destination from [off] on, which is a write past
    the buffer, or when the source does not hold [n] written bytes. *)
Definition memcpy_at (off n : nat) (src dst : list Z) : option (list Z) :=
  if ((off + n <=? length dst) && (n <=? length src))%nat
  then Some (firstn off dst ++ firstn n src ++ skipn (off + n) dst)
  else None.

Fixpoint set_nth {A : Type} (n : nat) (x : A) (l : list A) : list A :=
  match l, n with
  | [], _ => []
  | _ :: t, O => x :: t
  | h :: t, S n' => h :: set_nth n' x t
  end.

Record readBlocks_state : Type := mkRBS {
  rb_currbuf : nat;
  rb_ret : list Z;
  rb_dests : list (list Z);
  rb_fs : Filesystem
}.

(** One iteration of the [for] loop, lines 353-361. *)
Definition readBlocks_body (buffer_offset : nat) (i : Z) (st : readBlocks_state)
  : option readBlocks_state :=
  match readBlock i (rb_fs st) with
  | RB_return NULL fs' =>
      Some (mkRBS (rb_currbuf st) (rb_ret st) (rb_dests st) fs')
  | RB_return (Buf a) fs' =>
      match nth_error (rb_dests st) (rb_currbuf st) with
      | None => None
      | Some dst =>
          match memcpy_at buffer_offset (Z.to_nat (to_u32 blocksize))
                          (contents fs' a) dst with
          | None => None
          | Some dst' =>
              Some (mkRBS (S (rb_currbuf st)) (rb_ret st ++ [i])
                          (set_nth (rb_currbuf st) dst' (rb_dests st))
                          (releaseBuffer (Buf a) fs'))
          end
      end
  | RB_getBlock _ => None
  | RB_undefined => None
  end.

(** [count] iterations starting at block [i]. *)
Fixpoint readBlocks_loop (count : nat) (buffer_offset : nat) (i : Z)
         (st : readBlocks_state) : option readBlocks_state :=
  match count with
  | O => Some st
  | S count' =>
      match readBlocks_body buffer_offset i st with
      | None => None
      | Some st' => readBlocks_loop count' buffer_offset (i + 1) st'
      end
  end.

Definition readBlocks (pStartBlock : Z) (n : nat) (dests : list (list Z))
           (buffer_offset : nat) (fs : Filesystem) : option readBlocks_state :=
  readBlocks_loop n buffer_offset pStartBlock (mkRBS 0 [] dests fs).

(** ** The readahead thread

    [read_blocks] in ascending key order, as [std::map] iterates it. *)
Definition block_map : Type := list (Z * char_ptr).

Fixpoint map_find (k : Z) (m : block_map) : option char_ptr :=
  match m with
  | [] => None
  | (k', v) :: m' => if k' =? k then Some v else map_find k m'
  end.

Fixpoint map_erase (k : Z) (m : block_map) : block_map :=
  match m with
  | [] => []
  | (k', v) :: m' => if k' =? k then m' else (k', v) :: map_erase k m'
  end.

(** [m[k] = v] *)
Fixpoint map_set (k : Z) (v : char_ptr) (m : block_map) : block_map :=
  match m with
  | [] => [(k, v)]
  | (k', v') :: m' =>
      if k <? k' then (k, v) :: (k', v') :: m'
      else if k =? k' then (k, v) :: m'
      else (k', v') :: map_set k v m'
  end.

Definition map_size (m : block_map) : Z := Z.of_nat (length m).

Record ReadaheadThread : Type := mkRA {
  read_blocks : block_map;
  readahead_miss : bool;
  current_block : Z;
  do_stop : bool
}.

(** The constructor, lines 53-63. *)
Definition ReadaheadThread_new : ReadaheadThread := mkRA [] false (-1) false.

(** [clearUnusedReadahead], lines 184-201: walks the map from its smallest
    key and stops at the first key that is not below [pBlock]. *)
Fixpoint clearUnusedReadahead (pBlock : Z) (m : block_map) (fs : Filesystem)
  : block_map * Filesystem :=
  match m with
  | [] => ([], fs)
  | (k, v) :: m' =>
      if k <? pBlock then clearUnusedReadahead pBlock m' (releaseBuffer v fs)
      else (m, fs)
  end.

(** [next_used_block], lines 203-218.  The [while] runs while
    [pBlock < size/blocksize], that is [n - pBlock] times at most for
    [n = size/blocksize]; it tests the blocks [pBlock+1 .. n]. *)
Fixpoint next_used_block_loop (n : nat) (pBlock : Z) : option Z :=
  match n with
  | O => Some (-1)
  | S n' =>
      let pBlock := pBlock + 1 in
      match hasBlock pBlock with
      | None => None
      | Some true => Some pBlock
      | Some false => next_used_block_loop n' pBlock
      end
  end.

Definition next_used_block (pBlock : Z) : option Z :=
  match total_blocks with
  | None => None
  | Some n => next_used_block_loop (Z.to_nat (n - pBlock)) pBlock
  end.

(** *** Threads, control points and the shared state *)

Inductive thread_id : Type :=
| Task : thread_id
| Caller : nat -> thread_id.

(** Control points of [getBlock]; [ret] is the variable of line 148. *)
Inductive getBlock_pc : Type :=
| G_lock : getBlock_pc                  (* 144: waiting for the mutex *)
| G_loop : char_ptr -> getBlock_pc      (* 149: while(ret==NULL) *)
| G_wait : char_ptr -> getBlock_pc      (* 162: blocked on read_block_cond *)
| G_woken : char_ptr -> getBlock_pc     (* 162: notified, re-acquires the mutex *)
| G_return : char_ptr -> getBlock_pc.   (* 166: return ret *)

(** Control points of [operator()]. *)
Inductive task_pc : Type :=
| T_start : task_pc                     (* 85: waiting for the mutex *)
| T_loop : task_pc                      (* 86: while(!do_stop), then 88 *)
| T_backpressure : task_pc              (* 90: inner while *)
| T_bp_wait : task_pc                   (* 93: blocked on start_readahead_cond *)
| T_bp_woken : task_pc                  (* 93: notified; then 95 *)
| T_stop1 : task_pc                     (* 99 *)
| T_idle : task_pc                      (* 101: while(current_block==-1) *)
| T_idle_wait : task_pc                 (* 103: blocked on start_readahead_cond *)
| T_idle_woken : task_pc                (* 103: notified *)
| T_stop2 : task_pc                     (* 106, then the declaration of 108 *)
| T_advance : bool -> task_pc           (* 109-116; the flag is it!=end() *)
| T_found : task_pc                     (* 118 *)
| T_readBlock : task_pc                 (* 121: mutex released *)
| T_getBlock : Z -> getBlock_pc -> task_pc  (* 121: inside getBlock *)
| T_relock : char_ptr -> task_pc        (* 122-129 *)
| T_exit : task_pc                      (* 131: the loop is left *)
| T_undefined : task_pc.                (* undefined behaviour met *)

Record System : Type := mkSystem {
  fs : Filesystem;
  ra : ReadaheadThread;
  mutex : option thread_id;
  task : task_pc;
  callers : list (Z * getBlock_pc)   (* threads inside getBlock(block) *)
}.

Definition with_fs (f : Filesystem) (s : System) : System :=
  mkSystem f (ra s) (mutex s) (task s) (callers s).
Definition with_ra (r : ReadaheadThread) (s : System) : System :=
  mkSystem (fs s) r (mutex s) (task s) (callers s).
Definition with_mutex (m : option thread_id) (s : System) : System :=
  mkSystem (fs s) (ra s) m (task s) (callers s).
Definition with_task (t : task_pc) (s : System) : System :=
  mkSystem (fs s) (ra s) (mutex s) t (callers s).
Definition with_callers (c : list (Z * getBlock_pc)) (s : System) : System :=
  mkSystem (fs s) (ra s) (mutex s) (task s) c.

Definition set_read_blocks (m : block_map) (r : ReadaheadThread) :=
  mkRA m (readahead_miss r) (current_block r) (do_stop r).
Definition set_readahead_miss (b : bool) (r : ReadaheadThread) :=
  mkRA (read_blocks r) b (current_block r) (do_stop r).
Definition set_current_block (z : Z) (r : ReadaheadThread) :=
  mkRA (read_blocks r) (readahead_miss r) z (do_stop r).
Definition set_do_stop (b : bool) (r : ReadaheadThread) :=
  mkRA (read_blocks r) (readahead_miss r) (current_block r) b.

(** [start_readahead_cond->notify_all()]: only the task waits on it. *)
Definition notify_start (s : System) : System :=
  match task s with
  | T_bp_wait => with_task T_bp_woken s
  | T_idle_wait => with_task T_idle_woken s
  | _ => s
  end.

Definition wake (f : Z * getBlock_pc) : Z * getBlock_pc :=
  match f with
  | (b, G_wait r) => (b, G_woken r)
  | _ => f
  end.

(** [read_block_cond->notify_all()]: every thread blocked in [getBlock]. *)
Definition notify_read (s : System) : System :=
  let s := with_callers (map wake (callers s)) s in
  match task s with
  | T_getBlock b (G_wait r) => with_task (T_getBlock b (G_woken r)) s
  | _ => s
  end.

(** [readaheadFromInt], lines 178-182. *)
Definition readaheadFromInt (pBlock : Z) (s : System) : System :=
  notify_start (with_ra (set_current_block pBlock (ra s)) s).

(** *** [getBlock], lines 142-167, one control point at a time

    [None]: the thread cannot move (the mutex is taken, or it is blocked
    on the condition, or it has returned). *)
Definition getBlock_step (me : thread_id) (block : Z) (pc : getBlock_pc)
           (s : System) : option (getBlock_pc * System) :=
  match pc with
  | G_lock =>
      match mutex s with
      | Some _ => None
      | None =>
          let '(m, f) := clearUnusedReadahead block (read_blocks (ra s)) (fs s) in
          Some (G_loop NULL,
                with_fs f (with_ra (set_read_blocks m (ra s))
                                   (with_mutex (Some me) s)))
      end
  | G_loop ret =>
      if is_null ret then
        match map_find block (read_blocks (ra s)) with
        | Some _ =>
            (* char* ret = it->second declares a new variable: the one
               tested by the while keeps its value *)
            Some (G_loop ret,
                  with_ra (set_read_blocks
                             (map_erase block (read_blocks (ra s))) (ra s)) s)
        | None =>
            let s := readaheadFromInt block s in
            let s := with_ra (set_readahead_miss true (ra s)) s in
            Some (G_wait ret, with_mutex None s)
        end
      else Some (G_return ret, with_mutex None s)
  | G_wait _ => None
  | G_woken ret =>
      match mutex s with
      | Some _ => None
      | None => Some (G_loop ret, with_mutex (Some me) s)
      end
  | G_return _ => None
  end.

(** *** [operator()], lines 85-131, one control point at a time

    [it_ne_end] is the value of [it!=read_blocks.end()] for the iterator
    declared at line 108.  Line 111 discards the result of [find], so the
    iterator is never assigned; the comparison is given an arbitrary value,
    the same at lines 112 and 116 of one pass through the outer loop. *)
Definition task_step (it_ne_end : bool) (s : System) : option System :=
  let r := ra s in
  match task s with
  | T_start =>
      match mutex s with
      | Some _ => None
      | None => Some (with_task T_loop (with_mutex (Some Task) s))
      end
  | T_loop =>
      if do_stop r then Some (with_task T_exit (with_mutex None s))
      else if map_size (read_blocks r) >=? readahead_num_blocks
           then Some (with_task T_backpressure s)
           else Some (with_task T_stop1 s)
  | T_backpressure =>
      if (map_size (read_blocks r) >? readahead_low_level_blocks)
           && negb (readahead_miss r)
      then Some (with_task T_bp_wait (with_mutex None s))
      else Some (with_task T_stop1 s)
  | T_bp_wait => None
  | T_bp_woken =>
      match mutex s with
      | Some _ => None
      | None =>
          if do_stop r
          then Some (with_task T_stop1 (with_mutex (Some Task) s))
          else Some (with_task T_backpressure (with_mutex (Some Task) s))
      end
  | T_stop1 =>
      if do_stop r then Some (with_task T_exit (with_mutex None s))
      else Some (with_task T_idle s)
  | T_idle =>
      if current_block r =? -1
      then Some (with_task T_idle_wait (with_mutex None s))
      else Some (with_task T_stop2 s)
  | T_idle_wait => None
  | T_idle_woken =>
      match mutex s with
      | Some _ => None
      | None => Some (with_task T_idle (with_mutex (Some Task) s))
      end
  | T_stop2 =>
      if do_stop r then Some (with_task T_exit (with_mutex None s))
      else Some (with_task (T_advance it_ne_end) s)
  | T_advance true =>
      match next_used_block (current_block r) with
      | None => Some (with_task T_undefined s)
      | Some b => Some (with_ra (set_current_block b r) s)
      end
  | T_advance false => Some (with_task T_found s)
  | T_found =>
      if negb (current_block r =? -1)
      then Some (with_task T_readBlock (with_mutex None s))
      else Some (with_task T_loop s)
  | T_readBlock =>
      match readBlock (current_block r) (fs s) with
      | RB_return buf f => Some (with_task (T_relock buf) (with_fs f s))
      | RB_getBlock b => Some (with_task (T_getBlock b G_lock) s)
      | RB_undefined => Some (with_task T_undefined s)
      end
  | T_getBlock _ (G_return buf) => Some (with_task (T_relock buf) s)
  | T_getBlock b pc =>
      match getBlock_step Task b pc s with
      | None => None
      | Some (pc', s') => Some (with_task (T_getBlock b pc') s')
      end
  | T_relock buf =>
      match mutex s with
      | Some _ => None
      | None =>
          let s := with_mutex (Some Task) s in
          let r := set_read_blocks
                     (map_set (current_block r) buf (read_blocks r)) r in
          if readahead_miss r
          then Some (with_task T_loop
                       (with_ra (set_readahead_miss false r) (notify_read s)))
          else Some (with_task T_loop (with_ra r s))
      end
  | T_exit => None
  | T_undefined => None
  end.

(** [stop()], lines 169-174: one critical section. *)
Definition stop (s : System) : option System :=
  match mutex s with
  | Some _ => None
  | None => Some (notify_start (with_ra (set_do_stop true (ra s)) s))
  end.

(** *** The whole machine

    One event is one move of one thread.  A call of [fs.readBlock] with
    readahead on enters [getBlock] when the bit of the block is set, and
    returns [NULL] at once when it is not. *)

Inductive event : Type :=
| E_task : bool -> event      (* the task moves; the flag is it!=end() *)
| E_call : Z -> event         (* a thread calls fs.readBlock(block) *)
| E_caller : nat -> event     (* the n-th thread inside getBlock moves *)
| E_stop : event.             (* the owner calls stop() *)

Definition exec (e : event) (s : System) : option System :=
  match e with
  | E_task it => task_step it s
  | E_call block =>
      match readBlock block (fs s) with
      | RB_return _ f => Some (with_fs f s)
      | RB_getBlock b => Some (with_callers (callers s ++ [(b, G_lock)]) s)
      | RB_undefined => None
      end
  | E_caller i =>
      match nth_error (callers s) i with
      | None => None
      | Some (b, pc) =>
          match getBlock_step (Caller i) b pc s with
          | None => None
          | Some (pc', s') =>
              Some (with_callers (set_nth i (b, pc') (callers s')) s')
          end
      end
  | E_stop => stop s
  end.

Fixpoint run (es : list event) (s : System) : option System :=
  match es with
  | [] => Some s
  | e :: es' =>
      match exec e s with
      | None => None
      | Some s' => run es' s'
      end
  end.

(** The state after [Filesystem(pDev, true)]: the object, its
    [ReadaheadThread] and the task handed to the thread pool. *)
Definition System_new (pDev : IFile) : System :=
  mkSystem (Filesystem_new pDev true) ReadaheadThread_new None T_start [].

Inductive reachable (pDev : IFile) : System -> Prop :=
| reachable_new : reachable pDev (System_new pDev)
| reachable_exec : forall e s s',
    reachable pDev s -> exec e s = Some s' -> reachable pDev s'.

(** The task alone, [n] moves with the same iterator flag; a move that is
    not enabled leaves the state as it is. *)
Fixpoint task_run (it_ne_end : bool) (n : nat) (s : System) : System :=
  match n with
  | O => s
  | S n' =>
      match task_step it_ne_end s with
      | None => s
      | Some s' => task_run it_ne_end n' s'
      end
  end.

(** Events of the task and of the owner only: no thread calls [readBlock]. *)
Definition no_caller_event (e : event) : bool :=
  match e with
  | E_task _ => true
  | E_stop => true
  | _ => false
  end.

(** *** The target the advance loop is described to compute

    Written from the description of the loop, to compare with lines
    109-116: the smallest index from [t] on that the bitmap marks occupied
    and that is not a key of the cache, or [-1] past the last block. *)
Fixpoint spec_advance_loop (n : nat) (t : Z) (m : block_map) : Z :=
  match n with
  | O => -1
  | S n' =>
      match hasBlock t, map_find t m with
      | Some true, None => t
      | _, _ => spec_advance_loop n' (t + 1) m
      end
  end.

Definition spec_advance (t : Z) (m : block_map) : Z :=
  match total_blocks with
  | None => -1
  | Some n => spec_advance_loop (Z.to_nat (n - t)) t m
  end.

(** *** What holds in every state of the machine

    A thread inside [getBlock] asked for a block whose bit is set (line
    315 returned otherwise), its [ret] is [NULL], and it is not past the
    [while]. *)
Definition frame_ok (f : Z * getBlock_pc) : Prop :=
  has_bit (fst f) = Some true /\
  match snd f with
  | G_lock => True
  | G_loop NULL => True
  | G_wait NULL => True
  | _ => False
  end.

Definition task_ok (s : System) : Prop :=
  match task s with
  | T_relock _ => False
  | T_getBlock b pc => frame_ok (b, pc)
  | T_readBlock => has_bit (current_block (ra s)) = Some true
  | _ => True
  end.

Definition machine_inv (s : System) : Prop :=
  read_blocks (ra s) = [] /\
  readahead_thread (fs s) = true /\
  (current_block (ra s) = -1 \/ has_bit (current_block (ra s)) = Some true) /\
  task_ok s /\
  Forall frame_ok (callers s).

(** Events that are not enabled are skipped. *)
Fixpoint run_skip (es : list event) (s : System) : System :=
  match es with
  | [] => s
  | e :: es' =>
      match exec e s with
      | None => run_skip es' s
      | Some s' => run_skip es' s'
      end
  end.

(** The task waits in, or is about to re-enter, the idle wait of 101-104. *)
Definition in_idle_wait (t : task_pc) : bool :=
  match t with
  | T_idle | T_idle_wait | T_idle_woken => true
  | _ => false
  end.

(** The task is inside the do-while of 109-116, or met undefined behaviour
    there. *)
Definition in_advance_loop (t : task_pc) : bool :=
  match t with
  | T_advance true | T_undefined => true
  | _ => false
  end.

(** ** [calculateUsedSpace], lines 386-413

    [blocks1] is a [uint64], [tadd] an [unsigned int].  The state of the
    loops is the pair of [blocknum] and [used_blocks].  The product of
    line 412 is taken in [Z]. *)
Definition to_u64 (z : Z) : Z := z mod 2 ^ 64.

(** The [for] of lines 400-409 from bit [i] on, at most [k] passes. *)
Fixpoint used_in_byte (k : nat) (i b blocks1 : Z) (st : Z * Z) : Z * Z :=
  match k with
  | O => st
  | S k' =>
      let '(blocknum, used_blocks) := st in
      if blocknum >=? blocks1 then st
      else
        used_in_byte k' (i + 1) b blocks1
          (blocknum + 1,
           if 0 <? Z.land b (Z.shiftl 1 i) then used_blocks + 1 else used_blocks)
  end.

(** The [while] of lines 397-411: [n] bytes are left before [target],
    [idx] is the distance of [bm] from the start of the bitmap. *)
Fixpoint used_in_bitmap (n idx : nat) (blocks1 : Z) (st : Z * Z)
  : option (Z * Z) :=
  match n with
  | O => Some st
  | S n' =>
      match nth_error bitmap idx with
      | None => None
      | Some b => used_in_bitmap n' (S idx) blocks1 (used_in_byte 8 0 b blocks1 st)
      end
  end.

Definition calculateUsedSpace : option Z :=
  match total_blocks with
  | None => None
  | Some n =>
      let blocks1 := to_u64 n in
      let tadd := to_u32 (blocks1 / 8) in
      let tadd := if blocks1 mod 8 >? 0 then to_u32 (tadd + 1) else tadd in
      match used_in_bitmap (Z.to_nat tadd) 0 blocks1 (0, 0) with
      | None => None
      | Some (_, used_blocks) => Some (used_blocks * blocksize)
      end
  end.

(** The number of blocks among [lo .. lo+n-1] for which [hasBlock] answers
    true. *)
Definition block_is_set (i : Z) : bool :=
  match hasBlock i with
  | Some true => true
  | _ => false
  end.

Fixpoint count_set (n : nat) (lo : Z) : Z :=
  match n with
  | O => 0
  | S n' => (if block_is_set lo then 1 else 0) + count_set n' (lo + 1)
  end.

(** ** The destructors

    [~ReadaheadThread], lines 65-72: every cached buffer goes to
    [releaseBuffer]. *)
Definition ReadaheadThread_destroy (r : ReadaheadThread) (f : Filesystem)
  : Filesystem :=
  fold_left (fun f e => releaseBuffer (snd e) f) (read_blocks r) f.

(** Lines 282-285 of [~Filesystem]: every idle buffer goes to [delete[]]. *)
Definition delete_buffers (f : Filesystem) : Filesystem :=
  fold_left (fun f p => delete_buffer p f) (buffers f) f.

(** [~Filesystem] once the readahead task has been joined (line 273):
    line 274 destroys the readahead object, lines 282-285 empty the pool.
    The device of an object built from an [IFile*] is not destroyed. *)
Definition Filesystem_destroy (r : option ReadaheadThread) (f : Filesystem)
  : Filesystem :=
  match r with
  | Some r => delete_buffers (ReadaheadThread_destroy r f)
  | None => delete_buffers f
  end.

(** ** Notions used to state properties *)

(** The keys of a [std::map] come in ascending order. *)
Fixpoint keys_ascending (m : block_map) : Prop :=
  match m with
  | [] => True
  | (k, _) :: m' => (forall e, In e m' -> k < fst e) /\ keys_ascending m'
  end.

(** The bytes of block [i] on the device. *)
Definition device_block (i : Z) (d : IFile) : list Z :=
  firstn (Z.to_nat blocksize) (skipn (Z.to_nat (i * blocksize)) (file_data d)).

(** Every buffer allocated so far is held by a caller, idle in the pool,
    or was deleted. *)
Definition all_accounted (held : list char_ptr) (f : Filesystem) : Prop :=
  forall a, (a < next_addr f)%nat ->
            In (Buf a) held \/ In (Buf a) (buffers f) \/ In a (deleted f).


(** ** Example data

    An eight-byte device of two four-byte blocks, both marked in the
    bitmap; [plan] tells how many bytes each successive [Read] may
    deliver, and nothing once it is used up. *)
Definition demo_data : list Z := [10; 11; 12; 13; 14; 15; 16; 17].
Definition demo_bitmap : list Z := [3].
Definition demo_dev (plan : list Z) : IFile :=
  mkIFile demo_data 0 (fun _ => false) plan 0.

(** A readahead object with a given cache, target and miss flag, its task
    at control point [t], and the threads [c] inside [getBlock]. *)
Definition demo_system (m : block_map) (target : Z) (miss : bool)
           (mx : option thread_id) (t : task_pc) (c : list (Z * getBlock_pc))
  : System :=
  mkSystem (Filesystem_new (demo_dev []) true) (mkRA m miss target false) mx t c.

(** The state in which [fs.readBlock] has handed [NULL] back to the task
    after a failed read: the error flag is set, the task is at line 122,
    and a thread is blocked in [getBlock(0)] with the miss flagged. *)
Definition demo_failed_fetch : System :=
  mkSystem (set_has_error true (Filesystem_new (demo_dev []) true))
           (mkRA [] true 0 false) None (T_relock NULL) [(0, G_wait NULL)].

(** The pool after [n] buffers were released into a new object. *)
Definition demo_pool (n : nat) : Filesystem :=
  pool_run (map (fun k => Release (Buf k)) (seq 0 n))
           (Filesystem_new (demo_dev []) false).

(** A cache of [n] entries with keys [0 .. n-1]. *)
Definition full_cache (n : Z) : block_map :=
  map (fun k => (Z.of_nat k, NULL)) (seq 0 (Z.to_nat n)).


(** ** Properties *)

(** *** The buffer pool *)

Lemma releaseBuffer_idle_le (buf : char_ptr) (fs0 : Filesystem) :
  idle_count fs0 <= max_idle_buffers ->
  idle_count (releaseBuffer buf fs0) <= max_idle_buffers.
Proof.
  unfold releaseBuffer, idle_count, max_idle_buffers.
  destruct (Z.ltb_spec (Z.of_nat (length (buffers fs0))) 64) as [Hlt | Hge]; intro Hle.
  - simpl. rewrite length_app. simpl. lia.
  - destruct buf; simpl; exact Hle.
Qed.

Lemma getBuffer_idle_le (fs0 : Filesystem) :
  idle_count (snd (getBuffer fs0)) <= idle_count fs0.
Proof.
  unfold getBuffer, idle_count.
  destruct (buffers fs0) as [| p l] eqn:E; simpl.
  - rewrite E. simpl. lia.
  - destruct l as [| q l']; simpl; [lia |].
    assert (H : (length (removelast (q :: l')) <= length (q :: l'))%nat).
    { clear. generalize q. induction l' as [| x l IH]; intro y; simpl in *; [lia |].
      specialize (IH x). lia. }
    simpl in H. lia.
Qed.

Lemma pool_step_idle_le (fs0 : Filesystem) (c : pool_call) :
  idle_count fs0 <= max_idle_buffers ->
  idle_count (pool_step fs0 c) <= max_idle_buffers.
Proof.
  destruct c as [| p]; simpl; intro H.
  - pose proof (getBuffer_idle_le fs0). lia.
  - now apply releaseBuffer_idle_le.
Qed.

Lemma pool_run_idle_le (calls : list pool_call) :
  forall fs0, idle_count fs0 <= max_idle_buffers ->
              idle_count (pool_run calls fs0) <= max_idle_buffers.
Proof.
  induction calls as [| c calls IH]; intros fs0 H; simpl; [exact H |].
  apply IH. now apply pool_step_idle_le.
Qed.

Lemma set_buffers_same (fs0 : Filesystem) : set_buffers (buffers fs0) fs0 = fs0.
Proof. destruct fs0; reflexivity. Qed.

Lemma last_snoc {A : Type} (l : list A) (x d : A) : last (l ++ [x]) d = x.
Proof.
  induction l as [| y l IH]; simpl; [reflexivity |].
  destruct (l ++ [x]) eqn:E; [destruct l; discriminate | exact IH].
Qed.

Lemma removelast_snoc {A : Type} (l : list A) (x : A) : removelast (l ++ [x]) = l.
Proof.
  induction l as [| y l IH]; simpl; [reflexivity |].
  destruct (l ++ [x]) eqn:E; [destruct l; discriminate |].
  now rewrite IH.
Qed.

(** C8. Starting from a pool that holds at most 64 idle buffers (the
    constructor leaves it empty), any sequence of [getBuffer] and
    [releaseBuffer] calls leaves at most 64; a release at 64 idle buffers
    leaves the pool as it is and hands the buffer to [delete[]]: its
    address is added to the deleted addresses of the heap and it is not
    in the pool unless it was there before; a [getBuffer] on a non-empty
    pool returns the back of the vector and removes it, so that it undoes
    the release that pushed it. *)
Theorem C8_pool_idle_bound :
  (forall calls fs0,
      idle_count fs0 <= max_idle_buffers ->
      idle_count (pool_run calls fs0) <= max_idle_buffers) /\
  (forall buf fs0,
      idle_count fs0 = max_idle_buffers ->
      buffers (releaseBuffer buf fs0) = buffers fs0 /\
      releaseBuffer buf fs0 = delete_buffer buf fs0) /\
  (forall a fs0,
      idle_count fs0 = max_idle_buffers ->
      deleted (releaseBuffer (Buf a) fs0) = a :: deleted fs0 /\
      idle_count (releaseBuffer (Buf a) fs0) = max_idle_buffers /\
      next_addr (releaseBuffer (Buf a) fs0) = next_addr fs0) /\
  (forall a fs0,
      idle_count fs0 < max_idle_buffers ->
      buffers (releaseBuffer (Buf a) fs0) = buffers fs0 ++ [Buf a] /\
      deleted (releaseBuffer (Buf a) fs0) = deleted fs0) /\
  (forall fs0,
      buffers fs0 <> [] ->
      fst (getBuffer fs0) = last (buffers fs0) NULL /\
      buffers (snd (getBuffer fs0)) = removelast (buffers fs0)) /\
  (forall buf fs0,
      idle_count fs0 < max_idle_buffers ->
      getBuffer (releaseBuffer buf fs0) = (buf, fs0)).
Proof.
  split; [| split; [| split; [| split; [| split]]]].
  - intros calls fs0. apply pool_run_idle_le.
  - intros buf fs0 H. unfold releaseBuffer, idle_count in *.
    rewrite H. simpl. split; [destruct buf; reflexivity | reflexivity].
  - intros a fs0 H. unfold releaseBuffer, idle_count in *.
    rewrite H. simpl. repeat split. exact H.
  - intros a fs0 H. unfold releaseBuffer, idle_count in *.
    apply Z.ltb_lt in H. rewrite H. simpl. split; reflexivity.
  - intros fs0 H. unfold getBuffer.
    destruct (buffers fs0) as [| p l] eqn:E; [contradiction |].
    simpl. split; reflexivity.
  - intros buf fs0 H. unfold releaseBuffer, idle_count in *.
    apply Z.ltb_lt in H. rewrite H. unfold getBuffer. simpl.
    destruct (buffers fs0 ++ [buf]) eqn:E.
    + destruct (buffers fs0); discriminate.
    + rewrite <- E, last_snoc, removelast_snoc.
      destruct fs0; reflexivity.
Qed.

(** *** The presence test *)

Lemma land_one_shifted (b k : Z) :
  0 <= k -> (0 <? Z.land b (Z.shiftl 1 k)) = Z.testbit b k.
Proof.
  intro Hk.
  assert (E : Z.land b (Z.shiftl 1 k) = if Z.testbit b k then 2 ^ k else 0).
  { rewrite Z.shiftl_1_l. apply Z.bits_inj'. intros n Hn.
    rewrite Z.land_spec, Z.pow2_bits_eqb by exact Hk.
    destruct (Z.eqb_spec k n) as [-> | Hne].
    - destruct (Z.testbit b n); simpl.
      + rewrite Z.pow2_bits_eqb by exact Hn. now rewrite Z.eqb_refl.
      + now rewrite Z.bits_0.
    - rewrite andb_false_r. destruct (Z.testbit b k).
      + rewrite Z.pow2_bits_eqb by exact Hk.
        symmetry. apply Z.eqb_neq. exact Hne.
      + now rewrite Z.bits_0. }
  rewrite E. destruct (Z.testbit b k).
  - apply Z.ltb_lt. apply Z.pow_pos_nonneg; lia.
  - reflexivity.
Qed.

(** C9, as amended. For an index [i] of an addressable block, with a
    bitmap that has a byte for every addressable block, [hasBlock]
    returns whether bit [i mod 8] of byte [i / 8] is set; it is a function
    of the bitmap alone.  (The function has no test of [i] against the
    number of blocks: nothing is promised outside the range.) *)
Theorem C9_hasBlock_in_range (i n : Z) :
  total_blocks = Some n ->
  0 <= i < n ->
  n <= 8 * Z.of_nat (length bitmap) ->
  i < 2 ^ 63 ->
  hasBlock i = Some (Z.testbit (nth (Z.to_nat (i / 8)) bitmap 0) (i mod 8)).
Proof.
  intros _ [H0 Hlt] Hlen H63.
  unfold hasBlock, has_bit, to_size_t, int_bits.
  rewrite Z.quot_div_nonneg, Z.rem_mod_nonneg by lia.
  assert (Hq : 0 <= i / 8 < Z.of_nat (length bitmap)).
  { split; [apply Z.div_pos; lia | apply Z.div_lt_upper_bound; lia]. }
  assert (Hq' : i / 8 < 2 ^ 64).
  { apply Z.div_lt_upper_bound; lia. }
  assert (Hm : 0 <= i mod 8 < 8) by (apply Z.mod_pos_bound; lia).
  rewrite (Z.mod_small (i / 8)) by lia.
  rewrite (Z.mod_small (i mod 8)) by lia.
  destruct (Z.ltb_spec (i / 8) (Z.of_nat (length bitmap))) as [_ | Hc]; [| lia].
  destruct (Z.ltb_spec (i mod 8) 32) as [_ | Hc]; [| lia].
  now rewrite land_one_shifted by lia.
Qed.

(** *** The retrying read and the direct path *)

Lemma readFromDev_loop_frame (fuel : nat) (bsize : Z) :
  forall rc tries acc f ok data f',
    readFromDev_loop fuel bsize rc tries acc f = Some (ok, data, f') ->
    has_error f' = has_error f /\ buffers f' = buffers f /\
    readahead_thread f' = readahead_thread f /\ deleted f' = deleted f /\
    next_addr f' = next_addr f.
Proof.
  induction fuel as [| fuel IH]; intros rc tries acc f ok data f' H; simpl in H.
  - destruct (rc <? bsize); [discriminate |].
    inversion H; subst. repeat split.
  - destruct (rc <? bsize).
    + destruct (tries - 1 <? 0).
      * inversion H; subst. repeat split.
      * apply IH in H. simpl in H. exact H.
    + inversion H; subst. repeat split.
Qed.

(** The counter [tries] ends the loop: the fuel of [readFromDev] is never
    used up. *)
Lemma readFromDev_loop_returns (fuel : nat) (bsize : Z) :
  forall rc tries acc f,
    0 <= tries -> (Z.to_nat tries < fuel)%nat ->
    readFromDev_loop fuel bsize rc tries acc f <> None.
Proof.
  induction fuel as [| fuel IH]; intros rc tries acc f H0 Hf; [lia |].
  simpl. destruct (rc <? bsize); [| discriminate].
  destruct (Z.ltb_spec (tries - 1) 0) as [Hneg | Hpos]; [discriminate |].
  apply IH; lia.
Qed.

Lemma firstn_then_firstn_skipn {A : Type} (l : list A) :
  forall k g, firstn k l ++ firstn g (skipn k l) = firstn (k + g) l.
Proof.
  induction l as [| a l IH]; intros k g.
  - now rewrite skipn_nil, !firstn_nil.
  - destruct k as [| k]; simpl; [reflexivity |]. now rewrite IH.
Qed.

Lemma Read_facts (n : Z) (f d : IFile) (got : list Z) :
  Read n f = (got, d) ->
  file_data d = file_data f /\
  file_pos d = file_pos f + Z.of_nat (length got) /\
  read_calls d = S (read_calls f) /\
  (length got <= Z.to_nat n)%nat /\
  got = firstn (length got) (skipn (Z.to_nat (file_pos f)) (file_data f)).
Proof.
  unfold Read. intro H. inversion H; subst; clear H. simpl.
  repeat split.
  - rewrite length_firstn. lia.
  - rewrite length_firstn.
    set (m := Z.to_nat (Z.min n match read_plan f with [] => 0 | k :: _ => k end)).
    set (l := skipn (Z.to_nat (file_pos f)) (file_data f)).
    destruct (Nat.le_ge_cases m (length l)) as [Hm | Hm].
    + now rewrite Nat.min_l.
    + rewrite Nat.min_r, firstn_all by exact Hm. now rewrite firstn_all2.
Qed.

Lemma readFromDev_loop_S (fuel : nat) (bsize rc tries : Z) (acc : list Z)
      (f : Filesystem) :
  readFromDev_loop (S fuel) bsize rc tries acc f =
  if rc <? bsize then
    let '(got, d) := Read (to_u32 (bsize - rc)) (dev f) in
    if tries - 1 <? 0
    then Some (false, acc ++ got, set_dev d (Server_wait 200 f))
    else readFromDev_loop fuel bsize (to_u32 (rc + Z.of_nat (length got)))
                          (tries - 1) (acc ++ got)
                          (set_dev d (Server_wait 200 f))
  else Some (true, acc, f).
Proof. reflexivity. Qed.

Lemma to_u32_small (z : Z) : 0 <= z < 2 ^ 32 -> to_u32 z = z.
Proof. intro H. unfold to_u32. now apply Z.mod_small. Qed.

(** The bytes gathered by the loop are the bytes of the device from the
    offset where the first [Read] started, and a success means that all
    [bsize] of them are there. *)
Lemma readFromDev_loop_data (bsize pos0 : Z) (fuel : nat) :
  0 <= bsize < 2 ^ 32 -> 0 <= pos0 ->
  forall rc tries acc f ok data f',
    rc = Z.of_nat (length acc) -> rc <= bsize ->
    file_pos (dev f) = pos0 + rc ->
    acc = firstn (length acc) (skipn (Z.to_nat pos0) (file_data (dev f))) ->
    readFromDev_loop fuel bsize rc tries acc f = Some (ok, data, f') ->
    data = firstn (length data) (skipn (Z.to_nat pos0) (file_data (dev f))) /\
    (ok = true -> Z.of_nat (length data) = bsize).
Proof.
  intros Hb Hp. induction fuel as [| fuel IH];
    intros rc tries acc f ok data f' Hrc Hle Hpos Hacc H.
  - simpl in H. destruct (Z.ltb_spec rc bsize) as [Hlt | Hge]; [discriminate |].
    inversion H; subst. split; [exact Hacc | intros _; lia].
  - rewrite readFromDev_loop_S in H.
    destruct (Z.ltb_spec rc bsize) as [Hlt | Hge].
    2: { inversion H; subst. split; [exact Hacc | intros _; lia]. }
    destruct (Read (to_u32 (bsize - rc)) (dev f)) as [got d] eqn:R.
    apply Read_facts in R. destruct R as (Rd & Rp & _ & Rl & Rg).
    rewrite to_u32_small in Rl by lia.
    assert (Happ : acc ++ got =
                   firstn (length (acc ++ got))
                          (skipn (Z.to_nat pos0) (file_data (dev f)))).
    { rewrite length_app, <- firstn_then_firstn_skipn, <- Hacc.
      f_equal. rewrite skipn_skipn.
      replace (length acc + Z.to_nat pos0)%nat
        with (Z.to_nat (file_pos (dev f))) by lia.
      exact Rg. }
    destruct (tries - 1 <? 0).
    + inversion H; subst. split; [exact Happ | discriminate].
    + apply IH in H; cbn [set_dev dev] in *.
      * rewrite Rd in H. exact H.
      * rewrite length_app, to_u32_small; lia.
      * rewrite to_u32_small; lia.
      * rewrite to_u32_small by lia. rewrite Rp. lia.
      * rewrite Rd. exact Happ.
Qed.

(** From [tries >= 0] the loop issues at most [tries+1] further reads, each
    after a wait of 200 ms. *)
Lemma readFromDev_loop_calls (bsize : Z) (fuel : nat) :
  forall rc tries acc f ok data f',
    0 <= tries ->
    readFromDev_loop fuel bsize rc tries acc f = Some (ok, data, f') ->
    (read_calls (dev f') <= read_calls (dev f) + Z.to_nat (tries + 1))%nat /\
    waited_ms f' <= waited_ms f + 200 * (tries + 1).
Proof.
  induction fuel as [| fuel IH]; intros rc tries acc f ok data f' Ht H.
  - simpl in H. destruct (rc <? bsize); [discriminate |]. inversion H; subst. lia.
  - rewrite readFromDev_loop_S in H.
    destruct (rc <? bsize).
    2: { inversion H; subst. lia. }
    destruct (Read (to_u32 (bsize - rc)) (dev f)) as [got d] eqn:R.
    apply Read_facts in R. destruct R as (_ & _ & Rc & _).
    destruct (Z.ltb_spec (tries - 1) 0) as [Hneg | Hpos].
    + inversion H; subst. cbn [set_dev dev Server_wait waited_ms]. lia.
    + apply IH in H; [| lia]. cbn [set_dev dev Server_wait waited_ms] in H. lia.
Qed.

Arguments readFromDev_loop : simpl never.
Arguments readFromDev : simpl never.

Lemma store_frame (p : char_ptr) (data : list Z) (f : Filesystem) :
  has_error (store p data f) = has_error f /\
  buffers (store p data f) = buffers f /\
  readahead_thread (store p data f) = readahead_thread f /\
  deleted (store p data f) = deleted f /\
  next_addr (store p data f) = next_addr f /\
  dev (store p data f) = dev f /\
  waited_ms (store p data f) = waited_ms f.
Proof. destruct p; simpl; repeat split. Qed.

Lemma readFromDev_frame (buf : char_ptr) (bsize : Z) (f f' : Filesystem) (ok : bool) :
  readFromDev buf bsize f = Some (ok, f') ->
  buf <> NULL /\
  has_error f' = has_error f /\ buffers f' = buffers f /\
  readahead_thread f' = readahead_thread f /\ deleted f' = deleted f /\
  next_addr f' = next_addr f.
Proof.
  unfold readFromDev. destruct buf as [| a]; cbn [is_null]; [discriminate |].
  destruct (Read bsize (dev f)) as [got d].
  destruct (readFromDev_loop _ _ _ _ _ _) as [[[ok' data] f1] |] eqn:E; [| discriminate].
  intro H; inversion H; subst.
  apply readFromDev_loop_frame in E. cbn [set_dev has_error buffers readahead_thread deleted next_addr] in E.
  split; [discriminate | exact E].
Qed.

Lemma readFromDev_returns (buf : char_ptr) (bsize : Z) (f : Filesystem) :
  buf <> NULL -> readFromDev buf bsize f <> None.
Proof.
  intro Hn. unfold readFromDev. destruct buf as [| a]; [contradiction |].
  cbn [is_null]. destruct (Read bsize (dev f)) as [got d].
  pose proof (readFromDev_loop_returns 32 bsize
                (to_u32 (Z.of_nat (length got))) 20 got (set_dev d f)) as H.
  destruct (readFromDev_loop _ _ _ _ _ _) as [[[ok data] f1] |].
  - discriminate.
  - exfalso. apply H; [lia | | reflexivity].
    change (Z.to_nat 20) with 20%nat. lia.
Qed.

(** A successful [readFromDev] has put into the buffer the [bsize] bytes
    of the device that start at the offset of the call. *)
Lemma readFromDev_true_reads_block (a : nat) (bsize : Z) (f f' : Filesystem) :
  0 <= bsize < 2 ^ 32 -> 0 <= file_pos (dev f) ->
  readFromDev (Buf a) bsize f = Some (true, f') ->
  firstn (Z.to_nat bsize) (contents f' a) =
  firstn (Z.to_nat bsize)
         (skipn (Z.to_nat (file_pos (dev f))) (file_data (dev f))) /\
  length (firstn (Z.to_nat bsize) (contents f' a)) = Z.to_nat bsize.
Proof.
  intros Hb Hp. unfold readFromDev. cbn [is_null].
  destruct (Read bsize (dev f)) as [got d] eqn:R.
  apply Read_facts in R. destruct R as (Rd & Rp & _ & Rl & Rg).
  destruct (readFromDev_loop _ _ _ _ _ _) as [[[ok data] f1] |] eqn:E; [| discriminate].
  intro H; inversion H; subst; clear H.
  apply (readFromDev_loop_data bsize (file_pos (dev f))) in E;
    try assumption; cbn [set_dev dev] in *.
  - destruct E as (Hd & Hl). rewrite Rd in Hd. specialize (Hl eq_refl).
    assert (Hn : length data = Z.to_nat bsize) by lia.
    cbn [store contents]. rewrite Nat.eqb_refl.
    assert (Hf : firstn (Z.to_nat bsize)
                        (data ++ skipn (length data) (contents f1 a)) = data).
    { rewrite <- Hn, firstn_app, Nat.sub_diag, firstn_O, app_nil_r.
      apply firstn_all. }
    rewrite Hf. split; [rewrite Hd at 1; now rewrite Hn | exact Hn].
  - rewrite to_u32_small; lia.
  - rewrite to_u32_small; lia.
  - rewrite to_u32_small by lia. rewrite Rp. reflexivity.
  - rewrite Rd. exact Rg.
Qed.

(** [readFromDev] issues at most 22 reads and waits at most 21 times. *)
Lemma readFromDev_calls (buf : char_ptr) (bsize : Z) (f f' : Filesystem) (ok : bool) :
  readFromDev buf bsize f = Some (ok, f') ->
  (read_calls (dev f') <= read_calls (dev f) + 22)%nat /\
  waited_ms f' <= waited_ms f + 21 * 200.
Proof.
  unfold readFromDev. destruct buf as [| a]; cbn [is_null]; [discriminate |].
  destruct (Read bsize (dev f)) as [got d] eqn:R.
  apply Read_facts in R. destruct R as (_ & _ & Rc & _).
  destruct (readFromDev_loop _ _ _ _ _ _) as [[[ok' data] f1] |] eqn:E; [| discriminate].
  intro H; inversion H; subst; clear H.
  apply readFromDev_loop_calls in E; [| lia].
  cbn [set_dev dev waited_ms] in E.
  cbn [store dev waited_ms].
  change (Z.to_nat (20 + 1)) with 21%nat in E. lia.
Qed.

Lemma getBuffer_frame (f : Filesystem) :
  has_error (snd (getBuffer f)) = has_error f /\
  readahead_thread (snd (getBuffer f)) = readahead_thread f /\
  deleted (snd (getBuffer f)) = deleted f.
Proof.
  unfold getBuffer. destruct (buffers f); simpl; repeat split.
Qed.

Lemma releaseBuffer_frame (p : char_ptr) (f : Filesystem) :
  has_error (releaseBuffer p f) = has_error f /\
  readahead_thread (releaseBuffer p f) = readahead_thread f.
Proof.
  unfold releaseBuffer.
  destruct (Z.of_nat (length (buffers f)) <? max_idle_buffers); simpl.
  - split; reflexivity.
  - destruct p; simpl; split; reflexivity.
Qed.

(** What a returning [readBlock] tells: the error flag is never reset; a
    null result for a block whose bit is set comes with the flag; a buffer
    is only returned for a block whose bit is set. *)
Lemma readBlock_return (i : Z) (f f' : Filesystem) (p : char_ptr) :
  readBlock i f = RB_return p f' ->
  (has_error f = true -> has_error f' = true) /\
  (p = NULL -> has_bit i = Some true -> has_error f' = true) /\
  (p <> NULL -> has_bit i = Some true).
Proof.
  unfold readBlock.
  destruct (has_bit i) as [[|] |]; [| | discriminate].
  - destruct (readahead_thread f); simpl; [discriminate |].
    destruct (Seek (i * blocksize) (dev f)) as [b d].
    destruct b; simpl.
    + destruct (getBuffer (set_dev d f)) as [buf f1] eqn:G.
      destruct (readFromDev buf (to_u32 blocksize) f1) as [[[|] f2] |] eqn:R;
        [| | discriminate]; intro H; inversion H; subst.
      * apply readFromDev_frame in R. destruct R as (Hn & He & _).
        pose proof (getBuffer_frame (set_dev d f)) as (Hg & _).
        rewrite G in Hg. simpl in Hg.
        repeat split; intros; try congruence.
      * repeat split.
    + intro H; inversion H; subst. repeat split.
  - intro H; inversion H; subst. repeat split; intros; congruence.
Qed.

(** On the direct path, when the seek succeeds and [NULL] comes back for a
    block whose bit is set, the buffer taken by [getBuffer] is not put back:
    the pool has lost its last entry (or a new buffer was allocated) and
    nothing was deleted. *)
Lemma readBlock_failed_read_keeps_buffer (i : Z) (f f' : Filesystem) :
  readahead_thread f = false ->
  has_bit i = Some true ->
  fst (Seek (i * blocksize) (dev f)) = true ->
  readBlock i f = RB_return NULL f' ->
  has_error f' = true /\
  buffers f' = removelast (buffers f) /\
  deleted f' = deleted f.
Proof.
  intros Hr Hb Hs. unfold readBlock. rewrite Hb, Hr. cbn [negb].
  destruct (Seek (i * blocksize) (dev f)) as [b d]. cbn [fst] in Hs. subst b.
  cbn [negb].
  destruct (getBuffer (set_dev d f)) as [buf f1] eqn:G.
  assert (Hg : buffers f1 = removelast (buffers f) /\ deleted f1 = deleted f).
  { unfold getBuffer in G. cbn [set_dev buffers] in G.
    destruct (buffers f) as [| p l] eqn:B.
    - unfold new_buffer in G. inversion G; subst. cbn. now rewrite B.
    - inversion G; subst. cbn. split; reflexivity. }
  destruct (readFromDev buf (to_u32 blocksize) f1) as [[[|] f2] |] eqn:R;
    [| | discriminate]; intro H; inversion H; subst.
  - apply readFromDev_frame in R. destruct R as [Hn _]. contradiction.
  - apply readFromDev_frame in R. destruct R as (_ & _ & Rb & _ & Rd & _).
    cbn. rewrite Rb, Rd. split; [reflexivity | exact Hg].
Qed.

Lemma readBlocks_body_cases (off : nat) (i : Z) (st st' : readBlocks_state) :
  readBlocks_body off i st = Some st' ->
  (has_error (rb_fs st) = true -> has_error (rb_fs st') = true) /\
  ((rb_ret st' = rb_ret st /\ rb_currbuf st' = rb_currbuf st /\
    rb_dests st' = rb_dests st /\
    (has_bit i = Some true -> has_error (rb_fs st') = true)) \/
   (rb_ret st' = rb_ret st ++ [i] /\ rb_currbuf st' = S (rb_currbuf st) /\
    has_bit i = Some true)).
Proof.
  unfold readBlocks_body.
  destruct (readBlock i (rb_fs st)) as [p f' | b |] eqn:R; try discriminate.
  apply readBlock_return in R. destruct R as (He & Hnull & Hbuf).
  destruct p as [| a].
  - intro H; inversion H; subst; simpl. split; [exact He |].
    left. repeat split. now apply Hnull.
  - destruct (nth_error (rb_dests st) (rb_currbuf st)); [| discriminate].
    destruct (memcpy_at _ _ _ _); [| discriminate].
    intro H; inversion H; subst; simpl.
    pose proof (releaseBuffer_frame (Buf a) f') as (Hr & _).
    split; [rewrite Hr; exact He |].
    right. repeat split. apply Hbuf. discriminate.
Qed.

Lemma readBlocks_loop_spec (off : nat) (count : nat) :
  forall i st st',
    readBlocks_loop count off i st = Some st' ->
    rb_currbuf st = length (rb_ret st) ->
    rb_currbuf st' = length (rb_ret st') /\
    (forall x, In x (rb_ret st') ->
               In x (rb_ret st) \/
               (i <= x < i + Z.of_nat count /\ has_bit x = Some true)) /\
    (forall x, In x (rb_ret st) -> In x (rb_ret st')) /\
    (has_error (rb_fs st) = true -> has_error (rb_fs st') = true) /\
    (forall x, i <= x < i + Z.of_nat count -> has_bit x = Some true ->
               In x (rb_ret st') \/ has_error (rb_fs st') = true).
Proof.
  induction count as [| count IH]; intros i st st' H Hc.
  - simpl in H. inversion H; subst.
    repeat split; auto. intros x Hx. lia.
  - simpl in H.
    destruct (readBlocks_body off i st) as [st1 |] eqn:B; [| discriminate].
    apply readBlocks_body_cases in B. destruct B as (He & Hcase).
    assert (Hc1 : rb_currbuf st1 = length (rb_ret st1)).
    { destruct Hcase as [(Hr & Hb & _) | (Hr & Hb & _)].
      - now rewrite Hr, Hb.
      - rewrite Hr, Hb, length_app, Hc. simpl. lia. }
    destruct (IH (i + 1) st1 st' H Hc1) as (P1 & P2 & P3 & P4 & P5).
    split; [exact P1 |]. split; [| split; [| split]].
    + intros x Hx. destruct (P2 x Hx) as [Hin | [Hr Hb]].
      * destruct Hcase as [(Hr & _) | (Hr & _ & Hb)].
        -- left. now rewrite <- Hr.
        -- rewrite Hr in Hin. apply in_app_or in Hin.
           destruct Hin as [Hin | [<- | []]]; [now left | right].
           split; [lia | exact Hb].
      * right. split; [lia | exact Hb].
    + intros x Hx. apply P3.
      destruct Hcase as [(Hr & _) | (Hr & _)]; rewrite Hr; [exact Hx |].
      apply in_or_app. now left.
    + auto.
    + intros x Hx Hb.
      destruct (Z.eq_dec x i) as [-> | Hne].
      * destruct Hcase as [(_ & _ & _ & Herr) | (Hr & _)].
        -- right. apply P4. now apply Herr.
        -- left. apply P3. rewrite Hr. apply in_or_app. right. now left.
      * apply P5; [lia | exact Hb].
Qed.

(** C10. In [readBlocks], an iteration whose [readBlock] returns [NULL]
    leaves the returned list, the destination index and the destination
    buffers as they are, whether the bit of the block is unset or the
    read failed.  For the whole call: the destination index equals the
    number of returned indices, every returned index lies in the range
    and has its bit set, and a block of the range whose bit is set and
    that is missing from the list leaves the error flag set. *)
Theorem C10_readBlocks_failed_block_skipped :
  (forall off i st f',
      readBlock i (rb_fs st) = RB_return NULL f' ->
      readBlocks_body off i st =
      Some (mkRBS (rb_currbuf st) (rb_ret st) (rb_dests st) f')) /\
  (forall start n dests off f st,
      readBlocks start n dests off f = Some st ->
      rb_currbuf st = length (rb_ret st) /\
      (forall i, In i (rb_ret st) ->
                 start <= i < start + Z.of_nat n /\ has_bit i = Some true) /\
      (forall i, start <= i < start + Z.of_nat n ->
                 has_bit i = Some true ->
                 ~ In i (rb_ret st) ->
                 hasError (rb_fs st) = true)).
Proof.
  unfold hasError. split.
  - intros off i st f' H. unfold readBlocks_body. now rewrite H.
  - intros start n dests off f st H. unfold readBlocks in H.
    apply readBlocks_loop_spec in H; [| reflexivity].
    destruct H as (P1 & P2 & _ & _ & P5). simpl in P2.
    split; [exact P1 |]. split.
    + intros i Hi. destruct (P2 i Hi) as [[] | Hr]. exact Hr.
    + intros i Hr Hb Hn. destruct (P5 i Hr Hb) as [Hin | He]; [contradiction | exact He].
Qed.

(** *** The readahead machine *)

Lemma next_used_block_loop_ok (n : nat) :
  forall p b, next_used_block_loop n p = Some b ->
              b = -1 \/ has_bit b = Some true.
Proof.
  induction n as [| n IH]; intros p b H; simpl in H.
  - inversion H. now left.
  - unfold hasBlock in H.
    destruct (has_bit (p + 1)) as [[|] |] eqn:E; [| | discriminate].
    + inversion H; subst. now right.
    + eapply IH; eassumption.
Qed.

Lemma readBlock_occupied (b : Z) (f : Filesystem) :
  has_bit b = Some true -> readahead_thread f = true ->
  readBlock b f = RB_getBlock b.
Proof. intros Hb Hr. unfold readBlock. now rewrite Hb, Hr. Qed.

Lemma notify_start_fields (s : System) :
  fs (notify_start s) = fs s /\ ra (notify_start s) = ra s /\
  mutex (notify_start s) = mutex s /\ callers (notify_start s) = callers s /\
  (task (notify_start s) = task s \/
   (task s = T_bp_wait /\ task (notify_start s) = T_bp_woken) \/
   (task s = T_idle_wait /\ task (notify_start s) = T_idle_woken)).
Proof.
  unfold notify_start. destruct (task s) eqn:T; simpl; rewrite ?T; auto 10.
Qed.

(** A move inside [getBlock] when the cache is empty: nothing is found,
    nothing is returned. *)
Lemma getBlock_step_empty (me : thread_id) (b : Z) (pc pc' : getBlock_pc)
      (s s' : System) :
  read_blocks (ra s) = [] ->
  frame_ok (b, pc) ->
  getBlock_step me b pc s = Some (pc', s') ->
  read_blocks (ra s') = [] /\ fs s' = fs s /\ frame_ok (b, pc') /\
  (current_block (ra s') = current_block (ra s) \/ current_block (ra s') = b) /\
  callers s' = callers s /\
  (task s' = task s \/
   (task s = T_bp_wait /\ task s' = T_bp_woken) \/
   (task s = T_idle_wait /\ task s' = T_idle_woken)).
Proof.
  intros Hm [Hb Hpc] H. simpl in Hb, Hpc.
  destruct pc as [| [| a] | [| a] | r | r]; try contradiction; simpl in H.
  - destruct (mutex s); [discriminate |]. rewrite Hm in H. simpl in H.
    inversion H; subst; simpl. repeat split; auto.
  - rewrite Hm in H. simpl in H. inversion H; subst; clear H. simpl.
    unfold readaheadFromInt.
    pose proof (notify_start_fields
                  (with_ra (set_current_block b (ra s)) s)) as (F & R & _ & C & T).
    simpl in F, R, C, T. rewrite F, R, C. simpl.
    repeat split; auto.
  - discriminate.
Qed.

Lemma set_nth_Forall {A : Type} (P : A -> Prop) (x : A) :
  forall l n, Forall P l -> P x -> Forall P (set_nth n x l).
Proof.
  induction l as [| h t IH]; intros n Hl Hx; simpl.
  - destruct n; constructor.
  - inversion Hl; subst. destruct n; constructor; auto.
Qed.

Lemma task_ok_moved (s s' : System) :
  task_ok s ->
  (task s' = task s \/
   (task s = T_bp_wait /\ task s' = T_bp_woken) \/
   (task s = T_idle_wait /\ task s' = T_idle_woken)) ->
  (current_block (ra s') = current_block (ra s) \/
   has_bit (current_block (ra s')) = Some true) ->
  task_ok s'.
Proof.
  unfold task_ok. intros H [E | [[E1 E2] | [E1 E2]]] Hc.
  - rewrite E. destruct (task s); auto.
    destruct Hc as [-> | Hc]; auto.
  - now rewrite E2.
  - now rewrite E2.
Qed.

Lemma task_step_inv (it : bool) (s s' : System) :
  machine_inv s -> task_step it s = Some s' -> machine_inv s'.
Proof.
  intros (Hm & Hr & Hc & Ht & Hf) H.
  unfold task_step in H. unfold machine_inv, task_ok in *.
  destruct (task s) eqn:T.
  all: try discriminate.
  all: try (repeat match type of H with
                   | context [match mutex ?s0 with _ => _ end] => destruct (mutex s0)
                   | context [if ?c then _ else _] => destruct c eqn:?
                   end;
            try discriminate; inversion H; subst; simpl; auto; fail).
  - (* T_advance *)
    destruct b.
    + destruct (next_used_block (current_block (ra s))) as [nb |] eqn:N.
      * inversion H; subst; simpl. rewrite T.
        unfold next_used_block in N. destruct total_blocks; [| discriminate].
        apply next_used_block_loop_ok in N.
        auto.
      * inversion H; subst; simpl. auto.
    + inversion H; subst; simpl. auto.
  - (* T_found *)
    destruct (current_block (ra s) =? -1) eqn:E; simpl in H;
      inversion H; subst; simpl; auto.
    apply Z.eqb_neq in E. destruct Hc as [Hc | Hc]; [contradiction |]. auto.
  - (* T_readBlock *)
    rewrite (readBlock_occupied _ _ Ht Hr) in H.
    inversion H; subst; simpl. unfold frame_ok. simpl. auto 10.
  - (* T_getBlock *)
    destruct g as [| r | r | r | r];
      try (destruct Ht as [_ Hx]; simpl in Hx;
           try destruct r; contradiction).
    all: match type of H with
         | context [getBlock_step ?me ?b ?pc ?s0] =>
             destruct (getBlock_step me b pc s0) as [[pc' s1] |] eqn:G; [| discriminate]
         end.
    all: inversion H; subst; clear H.
    all: destruct (getBlock_step_empty _ _ _ _ _ _ Hm Ht G)
        as (Hm1 & Hfs & Hok & Hcb & Hcl & _).
    all: simpl; rewrite Hm1, Hfs, Hcl; repeat split; auto.
    all: try apply Hok.
    all: destruct Hcb as [-> | ->]; auto; right; apply Ht.
  - (* T_relock *) contradiction.
Qed.

Lemma exec_inv (e : event) (s s' : System) :
  machine_inv s -> exec e s = Some s' -> machine_inv s'.
Proof.
  intros Hinv H. destruct e as [it | b | i |]; simpl in H.
  - eapply task_step_inv; eassumption.
  - destruct Hinv as (Hm & Hr & Hc & Ht & Hf).
    unfold readBlock in H. rewrite Hr in H. simpl in H.
    destruct (has_bit b) as [[|] |] eqn:Hb; [| | discriminate];
      inversion H; subst; unfold machine_inv, task_ok; simpl.
    + repeat split; auto.
      apply Forall_app. split; [exact Hf |].
      constructor; [| constructor]. split; [exact Hb | exact I].
    + repeat split; auto.
  - destruct Hinv as (Hm & Hr & Hc & Ht & Hf).
    destruct (nth_error (callers s) i) as [[b pc] |] eqn:N; [| discriminate].
    destruct (getBlock_step (Caller i) b pc s) as [[pc' s1] |] eqn:G; [| discriminate].
    inversion H; subst; clear H.
    assert (Hok : frame_ok (b, pc)).
    { rewrite Forall_forall in Hf. apply Hf. eapply nth_error_In; eassumption. }
    destruct (getBlock_step_empty _ _ _ _ _ _ Hm Hok G)
      as (Hm1 & Hfs & Hok1 & Hcb & Hcl & Htk).
    assert (Hcb' : current_block (ra s1) = current_block (ra s) \/
                   has_bit (current_block (ra s1)) = Some true).
    { destruct Hcb as [-> | ->]; [now left | right; apply Hok]. }
    unfold machine_inv. simpl. rewrite Hm1, Hfs, Hcl.
    repeat split; auto.
    + destruct Hcb' as [-> | ?]; auto.
    + apply (task_ok_moved s); auto.
    + apply set_nth_Forall; assumption.
  - unfold stop in H. destruct (mutex s); [discriminate |].
    inversion H; subst; clear H.
    destruct Hinv as (Hm & Hr & Hc & Ht & Hf).
    pose proof (notify_start_fields (with_ra (set_do_stop true (ra s)) s))
      as (F & R & _ & C & T).
    simpl in F, R, C, T.
    unfold machine_inv. rewrite F, R, C. simpl.
    repeat split; auto.
    apply (task_ok_moved s); auto. rewrite R. simpl. now left.
Qed.

Lemma System_new_inv (d : IFile) : machine_inv (System_new d).
Proof.
  unfold machine_inv, task_ok. simpl. repeat split; auto.
Qed.

Lemma reachable_inv (d : IFile) (s : System) :
  reachable d s -> machine_inv s.
Proof.
  induction 1 as [| e s s' _ IH H].
  - apply System_new_inv.
  - eapply exec_inv; eassumption.
Qed.

Lemma run_reachable (d : IFile) (es : list event) :
  forall s s', reachable d s -> run es s = Some s' -> reachable d s'.
Proof.
  induction es as [| e es IH]; intros s s' Hr H; simpl in H.
  - inversion H; subst. exact Hr.
  - destruct (exec e s) as [s1 |] eqn:E; [| discriminate].
    apply (IH s1); [| exact H]. eapply reachable_exec; eassumption.
Qed.

(** In every reachable state the cache is empty, the task is not at lines
    122-129, and every thread inside [getBlock] is before its first
    notification: still waiting for the mutex, at the head of the [while]
    with [ret==NULL], or blocked on [read_block_cond]. *)
Lemma reachable_never_serviced (d : IFile) (s : System) :
  reachable d s ->
  read_blocks (ra s) = [] /\
  (forall buf, task s <> T_relock buf) /\
  Forall (fun f => snd f = G_lock \/ snd f = G_loop NULL \/ snd f = G_wait NULL)
         (callers s).
Proof.
  intro H. apply reachable_inv in H. destruct H as (Hm & _ & _ & Ht & Hf).
  split; [exact Hm |]. split.
  - intros buf E. unfold task_ok in Ht. now rewrite E in Ht.
  - eapply Forall_impl; [| exact Hf].
    intros [b pc] [_ Hpc]. simpl in *.
    destruct pc as [| [| a] | [| a] | r | r]; try contradiction; auto.
Qed.

(** *** The cache count: what adds an entry, and what the pause keeps *)














(** *** The idle wait after [stop()] *)

Lemma idle_wait_exec (e : event) (s : System) :
  no_caller_event e = true ->
  current_block (ra s) = -1 ->
  in_idle_wait (task s) = true ->
  match exec e s with
  | Some s' => current_block (ra s') = -1 /\ in_idle_wait (task s') = true
  | None => True
  end.
Proof.
  intros He Hc Ht. destruct e as [it | b | i |]; try discriminate; simpl.
  - unfold task_step.
    destruct (task s) eqn:T; try discriminate; simpl; auto.
    + rewrite Hc. simpl. auto.
    + destruct (mutex s); simpl; auto.
  - unfold stop. destruct (mutex s); [exact I |].
    unfold notify_start. simpl.
    destruct (task s) eqn:T; try discriminate; simpl; rewrite ?T; auto.
Qed.

Lemma idle_wait_run_skip (es : list event) :
  forall s,
    current_block (ra s) = -1 ->
    in_idle_wait (task s) = true ->
    current_block (ra (run_skip (filter no_caller_event es) s)) = -1 /\
    in_idle_wait (task (run_skip (filter no_caller_event es) s)) = true.
Proof.
  induction es as [| e es IH]; intros s Hc Ht; simpl; [auto |].
  destruct (no_caller_event e) eqn:He; [| now apply IH].
  simpl. pose proof (idle_wait_exec e s He Hc Ht) as H.
  destruct (exec e s) as [s1 |]; [| now apply IH].
  destruct H as [Hc1 Ht1]. now apply IH.
Qed.

(** C2, on the code. The task starts and, with no block requested, goes
    to wait at line 103; the owner then calls [stop()].  The task wakes,
    finds [current_block==-1] at line 101 and waits again at line 103 with
    [do_stop] set: it has no move left, and whatever the task and the
    owner do from there (further [stop()] calls included), as long as no
    thread requests a block, the task never leaves its loop. *)
Theorem C2_stop_leaves_idle_task_waiting (d : IFile) :
  exists s,
    run [E_task false; E_task false; E_task false; E_task false;
         E_stop; E_task false; E_task false] (System_new d) = Some s /\
    do_stop (ra s) = true /\ task s = T_idle_wait /\ mutex s = None /\
    (forall it, task_step it s = None) /\
    (forall es, task (run_skip (filter no_caller_event es) s) <> T_exit).
Proof.
  eexists. split; [reflexivity |]. simpl.
  split; [reflexivity |]. split; [reflexivity |]. split; [reflexivity |].
  split; [reflexivity |].
  intros es E.
  match type of E with
  | task (run_skip _ ?s0) = _ =>
      destruct (idle_wait_run_skip es s0 eq_refl eq_refl) as [_ H]
  end.
  rewrite E in H. discriminate.
Qed.

(** *** The advance loop *)

Lemma advance_loop_stays (n : nat) :
  forall s, in_advance_loop (task s) = true ->
            in_advance_loop (task (task_run true n s)) = true.
Proof.
  induction n as [| n IH]; intros s H; simpl; [exact H |].
  unfold task_step.
  destruct (task s) as [| | | | | | | | | | [|] | | | | | |] eqn:T;
    try discriminate.
  - destruct (next_used_block (current_block (ra s))).
    + apply IH. simpl. now rewrite T.
    + apply IH. reflexivity.
  - now rewrite T.
Qed.


(** ** Further properties of the code *)

(** *** [calculateUsedSpace] *)

Lemma has_bit_at (j : nat) (d : Z) :
  (j < length bitmap)%nat -> 0 <= d < 8 -> 8 * Z.of_nat j + d < 2 ^ 63 ->
  has_bit (8 * Z.of_nat j + d)
  = Some (0 <? Z.land (nth j bitmap 0) (Z.shiftl 1 d)).
Proof.
  intros Hj Hd H63. unfold has_bit, to_size_t, int_bits.
  assert (Hq : (8 * Z.of_nat j + d) / 8 = Z.of_nat j).
  { replace (8 * Z.of_nat j + d) with (d + Z.of_nat j * 8) by lia.
    rewrite Z.div_add by lia. rewrite Z.div_small by lia. lia. }
  assert (Hm : (8 * Z.of_nat j + d) mod 8 = d).
  { replace (8 * Z.of_nat j + d) with (d + Z.of_nat j * 8) by lia.
    rewrite Z.mod_add by lia. apply Z.mod_small. lia. }
  rewrite Z.quot_div_nonneg, Z.rem_mod_nonneg by lia.
  rewrite Hq, Hm.
  rewrite (Z.mod_small d), (Z.mod_small (Z.of_nat j)) by lia.
  destruct (Z.ltb_spec d 32) as [_ | Hc]; [| lia].
  destruct (Z.ltb_spec (Z.of_nat j) (Z.of_nat (length bitmap))) as [_ | Hc];
    [| lia].
  now rewrite Nat2Z.id.
Qed.

Lemma count_set_add (n m : nat) :
  forall lo, count_set (n + m) lo
             = count_set n lo + count_set m (lo + Z.of_nat n).
Proof.
  induction n as [| n IH]; intro lo.
  - simpl. now rewrite Z.add_0_r.
  - cbn [Nat.add count_set]. rewrite IH.
    replace (lo + 1 + Z.of_nat n) with (lo + Z.of_nat (S n)) by lia. lia.
Qed.

Lemma count_set_bounds (n : nat) : forall lo, 0 <= count_set n lo <= Z.of_nat n.
Proof.
  induction n as [| n IH]; intro lo; [simpl; lia |].
  cbn [count_set]. specialize (IH (lo + 1)).
  destruct (block_is_set lo); lia.
Qed.

Lemma used_in_byte_count (b blocks1 : Z) (k : nat) :
  forall i bn u,
    0 <= bn <= blocks1 ->
    (forall d, 0 <= d < Z.of_nat k -> bn + d < blocks1 ->
               block_is_set (bn + d) = (0 <? Z.land b (Z.shiftl 1 (i + d)))) ->
    used_in_byte k i b blocks1 (bn, u)
    = (bn + Z.min (Z.of_nat k) (blocks1 - bn),
       u + count_set (Z.to_nat (Z.min (Z.of_nat k) (blocks1 - bn))) bn).
Proof.
  induction k as [| k IH]; intros i bn u Hbn Hbits.
  - simpl. rewrite Z.min_l by lia. simpl. f_equal; lia.
  - cbn [used_in_byte].
    destruct (Z.geb_spec bn blocks1) as [Hge | Hlt].
    + rewrite Z.min_r by lia. replace (blocks1 - bn) with 0 by lia.
      simpl. f_equal; lia.
    + rewrite IH; [| lia |].
      * assert (Hmin : Z.min (Z.of_nat (S k)) (blocks1 - bn)
                       = 1 + Z.min (Z.of_nat k) (blocks1 - (bn + 1))) by lia.
        rewrite Hmin.
        replace (Z.to_nat (1 + Z.min (Z.of_nat k) (blocks1 - (bn + 1))))
          with (S (Z.to_nat (Z.min (Z.of_nat k) (blocks1 - (bn + 1))))) by lia.
        cbn [count_set].
        specialize (Hbits 0 ltac:(lia) ltac:(lia)).
        rewrite !Z.add_0_r in Hbits. rewrite Hbits.
        f_equal; [lia |].
        destruct (0 <? Z.land b (Z.shiftl 1 i)); lia.
      * intros d Hd Hlt'.
        replace (bn + 1 + d) with (bn + (d + 1)) by lia.
        replace (i + 1 + d) with (i + (d + 1)) by lia.
        apply Hbits; lia.
Qed.

Lemma used_in_bitmap_count (blocks1 : Z) (n : nat) :
  0 <= blocks1 < 2 ^ 63 ->
  forall idx u,
    (idx + n <= length bitmap)%nat ->
    used_in_bitmap n idx blocks1 (Z.min (8 * Z.of_nat idx) blocks1, u)
    = Some (Z.min (8 * Z.of_nat (idx + n)) blocks1,
            u + count_set
                  (Z.to_nat (Z.min (8 * Z.of_nat (idx + n)) blocks1
                             - Z.min (8 * Z.of_nat idx) blocks1))
                  (Z.min (8 * Z.of_nat idx) blocks1)).
Proof.
  intro HB. induction n as [| n IH]; intros idx u Hlen.
  - simpl. rewrite Nat.add_0_r, Z.sub_diag. simpl. f_equal. f_equal. lia.
  - cbn [used_in_bitmap].
    destruct (nth_error bitmap idx) as [b |] eqn:N.
    2: { apply nth_error_None in N. lia. }
    assert (Hb : b = nth idx bitmap 0).
    { symmetry. now apply nth_error_nth. }
    set (bn := Z.min (8 * Z.of_nat idx) blocks1).
    rewrite (used_in_byte_count b blocks1 8 0 bn u).
    + assert (Hbn' : bn + Z.min (Z.of_nat 8) (blocks1 - bn)
                     = Z.min (8 * Z.of_nat (S idx)) blocks1) by (subst bn; lia).
      rewrite Hbn'. rewrite (IH (S idx)) by lia.
      replace (S idx + n)%nat with (idx + S n)%nat by lia.
      f_equal. f_equal. rewrite <- Z.add_assoc. f_equal.
      set (t := Z.to_nat (Z.min (Z.of_nat 8) (blocks1 - bn))).
      set (t' := Z.to_nat (Z.min (8 * Z.of_nat (idx + S n)) blocks1
                           - Z.min (8 * Z.of_nat (S idx)) blocks1)).
      replace (Z.to_nat (Z.min (8 * Z.of_nat (idx + S n)) blocks1 - bn))
        with (t + t')%nat by (subst t t' bn; lia).
      rewrite count_set_add. f_equal. f_equal. subst t bn. lia.
    + subst bn. lia.
    + intros d Hd Hlt. subst bn.
      assert (E : Z.min (8 * Z.of_nat idx) blocks1 = 8 * Z.of_nat idx) by lia.
      rewrite E in *. unfold block_is_set, hasBlock.
      rewrite has_bit_at; [| apply nth_error_Some; congruence | lia | lia].
      rewrite <- Hb. simpl (0 + d).
      now destruct (0 <? Z.land b (Z.shiftl 1 d)).
Qed.

(** X1. With a block size other than zero, so that the division of line
    389 gives a number [n] of blocks: the used space is the block size
    times the number of addressable blocks for which [hasBlock] answers
    true; bits of the last byte beyond the last block are not counted. *)
Theorem X1_calculateUsedSpace_counts_blocks (n : Z) :
  total_blocks = Some n ->
  0 <= n -> n + 7 < 2 ^ 35 ->
  n <= 8 * Z.of_nat (length bitmap) ->
  calculateUsedSpace = Some (count_set (Z.to_nat n) 0 * blocksize) /\
  0 <= count_set (Z.to_nat n) 0 <= n.
Proof.
  intros Htb H0 H35 Hlen. split.
  2: { pose proof (count_set_bounds (Z.to_nat n) 0). lia. }
  unfold calculateUsedSpace, to_u64. rewrite Htb.
  rewrite (Z.mod_small n) by lia.
  set (B := n) in *.
  assert (Hdiv : 0 <= B / 8 /\ 8 * (B / 8) <= B < 8 * (B / 8) + 8).
  { split; [apply Z.div_pos; lia |].
    pose proof (Z.div_mod B 8 ltac:(lia)).
    pose proof (Z.mod_pos_bound B 8 ltac:(lia)). lia. }
  assert (Hmod : B mod 8 = B - 8 * (B / 8)).
  { pose proof (Z.div_mod B 8 ltac:(lia)). lia. }
  set (tadd := if B mod 8 >? 0 then to_u32 (to_u32 (B / 8) + 1)
               else to_u32 (B / 8)).
  assert (Ht : 8 * tadd >= B /\ 8 * tadd < B + 8 /\ 0 <= tadd).
  { subst tadd. unfold to_u32. rewrite (Z.mod_small (B / 8)) by lia.
    destruct (Z.gtb_spec (B mod 8) 0) as [Hp | Hz].
    - rewrite Z.mod_small by lia. lia.
    - lia. }
  pose proof (used_in_bitmap_count B (Z.to_nat tadd) ltac:(lia) 0%nat 0
                ltac:(lia)) as H.
  change (8 * Z.of_nat 0) with 0 in H. rewrite (Z.min_l 0 B) in H by lia.
  rewrite H.
  replace (Z.min (8 * Z.of_nat (0 + Z.to_nat tadd)) B) with B by lia.
  rewrite Z.sub_0_r. reflexivity.
Qed.

(** X2. With a block size other than zero: when the number [n] of blocks
    is a multiple of [2^35], the number of bitmap bytes, kept in an
    [unsigned int], wraps to zero: no byte is looked at and the used
    space is reported as 0, whatever the bitmap holds. *)
Theorem X2_calculateUsedSpace_wraps (n : Z) :
  total_blocks = Some n ->
  0 <= n < 2 ^ 64 -> n mod 2 ^ 35 = 0 ->
  calculateUsedSpace = Some 0.
Proof.
  intros Htb HB Hm. unfold calculateUsedSpace, to_u64, to_u32. rewrite Htb.
  rewrite (Z.mod_small n) by lia.
  set (B := n) in *.
  assert (HB8 : B mod 8 = 0 /\ (B / 8) mod 2 ^ 32 = 0).
  { pose proof (Z.div_mod B (2 ^ 35) ltac:(lia)) as E. rewrite Hm in E.
    replace B with ((B / 2 ^ 35 * 2 ^ 32) * 8) at 1 2 by lia.
    rewrite Z.mod_mul, Z.div_mul by lia.
    split; [reflexivity |]. now rewrite Z.mod_mul by lia. }
  destruct HB8 as [H8 H32]. rewrite H8, H32. reflexivity.
Qed.

(** *** [next_used_block] *)

Lemma next_used_block_loop_spec (n : nat) :
  forall p b,
    next_used_block_loop n p = Some b ->
    (b = -1 /\
     forall j, p < j <= p + Z.of_nat n -> hasBlock j = Some false) \/
    (p < b <= p + Z.of_nat n /\ hasBlock b = Some true /\
     forall j, p < j < b -> hasBlock j = Some false).
Proof.
  induction n as [| n IH]; intros p b H; cbn [next_used_block_loop] in H.
  - inversion H; subst. left. split; [reflexivity | intros j Hj; lia].
  - destruct (hasBlock (p + 1)) as [[|] |] eqn:E; [| | discriminate].
    + inversion H; subst. right.
      split; [lia |]. split; [exact E | intros j Hj; lia].
    + apply IH in H. destruct H as [[Hb Hall] | (Hr & Hb & Hall)].
      * left. split; [exact Hb |]. intros j Hj.
        destruct (Z.eq_dec j (p + 1)) as [-> | Hne]; [exact E |].
        apply Hall. lia.
      * right. split; [lia |]. split; [exact Hb |]. intros j Hj.
        destruct (Z.eq_dec j (p + 1)) as [-> | Hne]; [exact E |].
        apply Hall. lia.
Qed.

(** X3. [next_used_block(p)] with [p] below the number of blocks returns the
    first index after [p] for which [hasBlock] answers true, looking at
    the indices up to and including the number of blocks itself, one past
    the last addressable block; when none of them is set it returns -1.
    With [p] at or beyond the number of blocks it returns -1 at once. *)
Theorem X3_next_used_block_first_set (p b : Z) :
  next_used_block p = Some b ->
  exists n,
    total_blocks = Some n /\
    ((b = -1 /\
      forall j, p < j <= n -> hasBlock j = Some false) \/
     (p < b <= n /\ hasBlock b = Some true /\
      forall j, p < j < b -> hasBlock j = Some false)).
Proof.
  unfold next_used_block. intro H.
  destruct total_blocks as [n |]; [| discriminate].
  exists n. split; [reflexivity |].
  apply next_used_block_loop_spec in H.
  destruct (Z.le_gt_cases n p) as [Hge | Hlt].
  - replace (Z.to_nat (n - p)) with 0%nat in H by lia.
    destruct H as [[Hb Hall] | (Hr & _)]; [| lia].
    left. split; [exact Hb | intros j Hj; lia].
  - rewrite Z2Nat.id in H by lia.
    replace (p + (n - p)) with n in H by lia.
    exact H.
Qed.

(** *** [clearUnusedReadahead] *)

Lemma releaseBuffer_keeps (v : char_ptr) (f : Filesystem) :
  (forall p, In p (buffers f) -> In p (buffers (releaseBuffer v f))) /\
  (forall a, In a (deleted f) -> In a (deleted (releaseBuffer v f))) /\
  next_addr (releaseBuffer v f) = next_addr f /\
  match v with
  | NULL => True
  | Buf a => In (Buf a) (buffers (releaseBuffer v f)) \/
             In a (deleted (releaseBuffer v f))
  end.
Proof.
  unfold releaseBuffer.
  destruct (Z.of_nat (length (buffers f)) <? max_idle_buffers).
  - cbn. split; [| split; [| split]].
    + intros p Hp. apply in_or_app. now left.
    + auto.
    + reflexivity.
    + destruct v; [exact I |]. left. apply in_or_app. right. now left.
  - destruct v as [| a]; cbn; (split; [| split; [| split]]); auto.
Qed.

Lemma map_find_below (p k : Z) (m : block_map) :
  (forall e, In e m -> p <= fst e) -> k < p -> map_find k m = None.
Proof.
  induction m as [| [k' v] m IH]; intros Hall Hk; [reflexivity |].
  cbn [map_find].
  destruct (Z.eqb_spec k' k) as [-> | Hne].
  - specialize (Hall (k, v) (or_introl eq_refl)). simpl in Hall. lia.
  - apply IH; [| exact Hk]. intros e He. apply Hall. now right.
Qed.

Lemma clearUnusedReadahead_spec (pBlock : Z) (m : block_map) :
  forall f m' f',
    keys_ascending m ->
    clearUnusedReadahead pBlock m f = (m', f') ->
    (forall e, In e m' -> pBlock <= fst e) /\
    (forall e, In e m -> pBlock <= fst e -> In e m') /\
    (forall k, map_find k m' = if k <? pBlock then None else map_find k m) /\
    keys_ascending m' /\
    (forall e a, In e m -> fst e < pBlock -> snd e = Buf a ->
                 In (Buf a) (buffers f') \/ In a (deleted f')) /\
    (forall p, In p (buffers f) -> In p (buffers f')) /\
    (forall a, In a (deleted f) -> In a (deleted f')) /\
    next_addr f' = next_addr f.
Proof.
  induction m as [| [k v] m IH]; intros f m' f' Hs H; cbn [clearUnusedReadahead] in H.
  - inversion H; subst. repeat split; auto.
    + intros e [].
    + intro k. cbn. now destruct (k <? pBlock).
    + intros e a [].
  - destruct Hs as [Hhd Hs].
    destruct (Z.ltb_spec k pBlock) as [Hlt | Hge].
    + pose proof (releaseBuffer_keeps v f) as (Kb & Kd & Kn & Kv).
      apply IH in H; [| exact Hs].
      destruct H as (H1 & H2 & H3 & H4 & H5 & H6 & H7 & H8).
      repeat split; auto.
      * intros e [<- | He] Hp; [simpl in Hp; lia | now apply H2].
      * intro k'. rewrite H3. cbn [map_find].
        destruct (Z.ltb_spec k' pBlock) as [_ | Hk']; [reflexivity |].
        destruct (Z.eqb_spec k k') as [-> | _]; [lia | reflexivity].
      * intros e a [<- | He] Hp Hv.
        -- simpl in Hv. subst v. destruct Kv as [Kv | Kv]; auto.
        -- eapply H5; eassumption.
      * congruence.
    + inversion H; subst.
      assert (Hall : forall e, In e ((k, v) :: m) -> pBlock <= fst e).
      { intros e [<- | He]; [simpl; lia |]. specialize (Hhd e He). lia. }
      repeat split; auto.
      * intro k'. destruct (Z.ltb_spec k' pBlock) as [Hk' | _]; [| reflexivity].
        now apply map_find_below with (p := pBlock).
      * intros e a He Hp. specialize (Hall e He). lia.
Qed.

(** X4. On a cache with ascending keys, [clearUnusedReadahead(pBlock)] leaves
    exactly the entries whose key is at least [pBlock]: a lookup below
    [pBlock] finds nothing afterwards and a lookup from [pBlock] on finds
    what it found before. *)
Theorem X4_clearUnusedReadahead_keeps_upper_keys
        (pBlock : Z) (m m' : block_map) (f f' : Filesystem) :
  keys_ascending m ->
  clearUnusedReadahead pBlock m f = (m', f') ->
  (forall e, In e m' <-> In e m /\ pBlock <= fst e) /\
  (forall k, map_find k m' = if k <? pBlock then None else map_find k m) /\
  keys_ascending m'.
Proof.
  intros Hs H.
  assert (Hsub : forall e, In e m' -> In e m).
  { clear Hs. revert f m' f' H.
    induction m as [| [k v] m IH]; intros f m' f' H;
      cbn [clearUnusedReadahead] in H.
    - inversion H; subst. auto.
    - destruct (k <? pBlock).
      + intros e He. right. eapply IH; eassumption.
      + inversion H; subst. auto. }
  apply clearUnusedReadahead_spec in H; [| exact Hs].
  destruct H as (H1 & H2 & H3 & H4 & _).
  split; [| split; assumption].
  intro e. split.
  - intro He. split; [now apply Hsub | now apply H1].
  - intros [He Hp]. now apply H2.
Qed.

(** X5. The buffers evicted by [clearUnusedReadahead] are not lost: each one
    is idle in the pool or was deleted afterwards, and what the pool and
    the heap held before is kept. *)
Theorem X5_clearUnusedReadahead_releases_evicted
        (pBlock : Z) (m m' : block_map) (f f' : Filesystem) :
  keys_ascending m ->
  clearUnusedReadahead pBlock m f = (m', f') ->
  (forall k a, map_find k m = Some (Buf a) -> k < pBlock ->
               In (Buf a) (buffers f') \/ In a (deleted f')) /\
  (forall p, In p (buffers f) -> In p (buffers f')) /\
  (forall a, In a (deleted f) -> In a (deleted f')) /\
  (idle_count f <= max_idle_buffers -> idle_count f' <= max_idle_buffers).
Proof.
  intros Hs H.
  assert (Hidle : idle_count f <= max_idle_buffers ->
                  idle_count f' <= max_idle_buffers).
  { clear Hs. revert f m' f' H.
    induction m as [| [k v] m IH]; intros f m' f' H Hi;
      cbn [clearUnusedReadahead] in H.
    - inversion H; subst. exact Hi.
    - destruct (k <? pBlock).
      + eapply IH; [eassumption |]. now apply releaseBuffer_idle_le.
      + inversion H; subst. exact Hi. }
  apply clearUnusedReadahead_spec in H; [| exact Hs].
  destruct H as (_ & _ & _ & _ & H5 & H6 & H7 & _).
  split; [| split; [| split]]; auto.
  intros k a Hf Hk.
  assert (Hin : In (k, Buf a) m).
  { clear - Hf. induction m as [| [k' v] m IH]; [discriminate |].
    cbn [map_find] in Hf. destruct (Z.eqb_spec k' k) as [-> | _].
    - inversion Hf; subst. now left.
    - right. now apply IH. }
  apply (H5 (k, Buf a) a Hin); [exact Hk | reflexivity].
Qed.

(** *** The destructors and the accounting of buffers *)

Lemma delete_fold_spec (l : list char_ptr) :
  forall f,
    let f' := fold_left (fun f p => delete_buffer p f) l f in
    (forall a, In (Buf a) l -> In a (deleted f')) /\
    (forall a, In a (deleted f) -> In a (deleted f')) /\
    next_addr f' = next_addr f /\ buffers f' = buffers f.
Proof.
  induction l as [| p l IH]; intro f; cbn [fold_left].
  - repeat split; auto. intros a [].
  - destruct (IH (delete_buffer p f)) as (H1 & H2 & H3 & H4).
    assert (Hd : (forall a, In a (deleted f) -> In a (deleted (delete_buffer p f))) /\
                 next_addr (delete_buffer p f) = next_addr f /\
                 buffers (delete_buffer p f) = buffers f /\
                 (forall a, p = Buf a -> In a (deleted (delete_buffer p f)))).
    { destruct p as [| b]; cbn; repeat split; auto; try discriminate.
      intros a E. inversion E; subst. now left. }
    destruct Hd as (D1 & D2 & D3 & D4).
    split; [| split; [| split]].
    + intros a [E | Hin]; [apply H2; now apply D4 | now apply H1].
    + intros a Ha. apply H2. now apply D1.
    + congruence.
    + congruence.
Qed.

Lemma release_fold_spec (m : block_map) :
  forall f,
    let f' := fold_left (fun f e => releaseBuffer (snd e) f) m f in
    (forall e a, In e m -> snd e = Buf a ->
                 In (Buf a) (buffers f') \/ In a (deleted f')) /\
    (forall p, In p (buffers f) -> In p (buffers f')) /\
    (forall a, In a (deleted f) -> In a (deleted f')) /\
    next_addr f' = next_addr f /\
    (idle_count f <= max_idle_buffers -> idle_count f' <= max_idle_buffers).
Proof.
  induction m as [| [k v] m IH]; intro f; cbn [fold_left snd].
  - repeat split; auto. intros e a [].
  - destruct (IH (releaseBuffer v f)) as (H1 & H2 & H3 & H4 & H5).
    pose proof (releaseBuffer_keeps v f) as (Kb & Kd & Kn & Kv).
    split; [| split; [| split; [| split]]]; auto.
    + intros e a [<- | He] Hv.
      * simpl in Hv. subst v. destruct Kv as [Kv | Kv]; auto.
      * eapply H1; eassumption.
    + congruence.
    + intro Hi. apply H5. now apply releaseBuffer_idle_le.
Qed.

(** X6. Once the task is joined, [~Filesystem] leaves nothing behind: every
    buffer still in the cache and every idle buffer of the pool has been
    handed to [delete[]], and so has every buffer deleted before. *)
Theorem X6_Filesystem_destroy_deletes_all
        (r : option ReadaheadThread) (f : Filesystem) :
  (forall a, In (Buf a) (buffers f) ->
             In a (deleted (Filesystem_destroy r f))) /\
  (forall r0 k a, r = Some r0 -> map_find k (read_blocks r0) = Some (Buf a) ->
                  In a (deleted (Filesystem_destroy r f))) /\
  (forall a, In a (deleted f) -> In a (deleted (Filesystem_destroy r f))).
Proof.
  destruct r as [r0 |]; cbn [Filesystem_destroy]; unfold delete_buffers.
  - pose proof (release_fold_spec (read_blocks r0) f) as (R1 & R2 & R3 & _).
    fold (ReadaheadThread_destroy r0 f) in R1, R2, R3.
    pose proof (delete_fold_spec (buffers (ReadaheadThread_destroy r0 f))
                                 (ReadaheadThread_destroy r0 f))
      as (D1 & D2 & _).
    cbn zeta in D1, D2.
    split; [| split].
    + intros a Ha. apply D1. now apply R2.
    + intros r1 k a E Hf. inversion E; subst r1.
      assert (Hin : In (k, Buf a) (read_blocks r0)).
      { clear - Hf. induction (read_blocks r0) as [| [k' v] m IH]; [discriminate |].
        cbn [map_find] in Hf. destruct (Z.eqb_spec k' k) as [-> | _].
        - inversion Hf; subst. now left.
        - right. now apply IH. }
      destruct (R1 (k, Buf a) a Hin eq_refl) as [Hp | Hd].
      * now apply D1.
      * now apply D2.
    + intros a Ha. apply D2. now apply R3.
  - pose proof (delete_fold_spec (buffers f) f) as (D1 & D2 & _).
    cbn zeta in D1, D2.
    split; [| split]; auto. intros r1 k a E. discriminate E.
Qed.

Lemma in_last_or_removelast {A : Type} (l : list A) (x d : A) :
  In x l -> x = last l d \/ In x (removelast l).
Proof.
  intro H. destruct l as [| y l]; [destruct H |].
  assert (E : y :: l = removelast (y :: l) ++ [last (y :: l) d]).
  { apply app_removelast_last. discriminate. }
  rewrite E in H. apply in_app_or in H.
  destruct H as [H | [H | []]]; auto.
Qed.

Lemma getBuffer_accounts (held : list char_ptr) (f f' : Filesystem) (p : char_ptr) :
  all_accounted held f -> getBuffer f = (p, f') ->
  all_accounted (p :: held) f'.
Proof.
  unfold all_accounted, getBuffer. intros Ha H.
  destruct (buffers f) as [| q l] eqn:B.
  - unfold new_buffer in H. inversion H; subst; clear H. cbn.
    intros a Hlt. destruct (Nat.eq_dec a (next_addr f)) as [-> | Hne].
    + left. now left.
    + destruct (Ha a ltac:(lia)) as [Hh | [Hb | Hd]]; auto.
      destruct Hb.
  - inversion H; subst; clear H. cbn [next_addr buffers deleted set_buffers].
    intros a Hlt. destruct (Ha a Hlt) as [Hh | [Hb | Hd]]; auto.
    + left. now right.
    + destruct (in_last_or_removelast (q :: l) (Buf a) NULL Hb) as [E | Hr].
      * left. left. rewrite ?B. now symmetry.
      * right. left. rewrite ?B. exact Hr.
Qed.

Lemma releaseBuffer_accounts (held : list char_ptr) (f : Filesystem) (a : nat) :
  all_accounted (Buf a :: held) f ->
  all_accounted held (releaseBuffer (Buf a) f).
Proof.
  unfold all_accounted. intros Ha b Hlt.
  pose proof (releaseBuffer_keeps (Buf a) f) as (Kb & Kd & Kn & Kv).
  rewrite Kn in Hlt.
  destruct (Ha b Hlt) as [[E | Hh] | [Hb | Hd]]; auto.
  inversion E; subst. destruct Kv; auto.
Qed.

Lemma readBlock_accounts (i : Z) (f f' : Filesystem) (p : char_ptr) :
  readBlock i f = RB_return p f' ->
  has_error f' = false ->
  all_accounted [] f ->
  all_accounted [p] f'.
Proof.
  unfold readBlock.
  destruct (has_bit i) as [[|] |]; [| | discriminate].
  - destruct (readahead_thread f); cbn [negb]; [discriminate |].
    destruct (Seek (i * blocksize) (dev f)) as [b d].
    destruct b; cbn [negb].
    + destruct (getBuffer (set_dev d f)) as [buf f1] eqn:G.
      destruct (readFromDev buf (to_u32 blocksize) f1) as [[[|] f2] |] eqn:R;
        [| | discriminate]; intros H He Ha; inversion H; subst.
      * apply readFromDev_frame in R. destruct R as (_ & _ & Rb & _ & Rd & Rn).
        apply getBuffer_accounts with (held := []) in G.
        -- unfold all_accounted in *. rewrite Rb, Rd, Rn. exact G.
        -- exact Ha.
      * cbn in He. discriminate.
    + intros H He. inversion H; subst. cbn in He. discriminate.
  - intros H _ Ha. inversion H; subst.
    unfold all_accounted in *. intros a Hlt.
    destruct (Ha a Hlt) as [[] | Hr]. now right.
Qed.

Lemma readBlocks_loop_accounts (off : nat) (count : nat) :
  forall i st st',
    readBlocks_loop count off i st = Some st' ->
    (has_error (rb_fs st) = true -> has_error (rb_fs st') = true) /\
    (has_error (rb_fs st') = false ->
     all_accounted [] (rb_fs st) -> all_accounted [] (rb_fs st')).
Proof.
  induction count as [| count IH]; intros i st st' H; cbn [readBlocks_loop] in H.
  - inversion H; subst. auto.
  - destruct (readBlocks_body off i st) as [st1 |] eqn:B; [| discriminate].
    apply IH in H. destruct H as [Hs Hacc].
    pose proof (readBlocks_body_cases _ _ _ _ B) as [Hs1 _].
    split; [auto |].
    intros He Ha. apply Hacc; [exact He |].
    assert (He1 : has_error (rb_fs st1) = false).
    { destruct (has_error (rb_fs st1)) eqn:E; [| reflexivity].
      rewrite Hs in He by reflexivity. discriminate. }
    unfold readBlocks_body in B.
    destruct (readBlock i (rb_fs st)) as [p f1 | b |] eqn:R; try discriminate.
    destruct p as [| a].
    + inversion B; subst. cbn in *.
      apply readBlock_accounts in R; [| exact He1 | exact Ha].
      unfold all_accounted in *. intros a Hlt.
      destruct (R a Hlt) as [[E | []] | Hr]; [discriminate | exact (or_intror Hr)].
    + destruct (nth_error (rb_dests st) (rb_currbuf st)); [| discriminate].
      destruct (memcpy_at _ _ _ _); [| discriminate].
      inversion B; subst. cbn in *.
      apply releaseBuffer_accounts.
      apply readBlock_accounts in R; [exact R | | exact Ha].
      now rewrite (proj1 (releaseBuffer_frame (Buf a) f1)) in He1.
Qed.

(** X7. No leak without an I/O error: if every buffer allocated so far is
    idle in the pool or deleted, and [readBlocks] returns with the error
    flag unset, the same holds afterwards, and [~Filesystem] then deletes
    every buffer that was ever allocated. *)
Theorem X7_readBlocks_without_error_leaks_nothing
        (start : Z) (n : nat) (dests : list (list Z)) (off : nat)
        (f : Filesystem) (st : readBlocks_state) :
  readBlocks start n dests off f = Some st ->
  hasError (rb_fs st) = false ->
  all_accounted [] f ->
  all_accounted [] (rb_fs st) /\
  forall a, (a < next_addr (rb_fs st))%nat ->
            In a (deleted (Filesystem_destroy None (rb_fs st))).
Proof.
  unfold readBlocks, hasError. intros H He Ha.
  apply readBlocks_loop_accounts in H. destruct H as [_ H].
  specialize (H He Ha). split; [exact H |].
  intros a Hlt. cbn [Filesystem_destroy]. unfold delete_buffers.
  pose proof (delete_fold_spec (buffers (rb_fs st)) (rb_fs st)) as (D1 & D2 & _).
  cbn zeta in D1, D2.
  destruct (H a Hlt) as [[] | [Hb | Hd]]; auto.
Qed.

(** *** More on the retrying read and the direct path *)

Lemma readFromDev_loop_O (bsize rc tries : Z) (acc : list Z) (f : Filesystem) :
  readFromDev_loop 0 bsize rc tries acc f
  = if rc <? bsize then None else Some (true, acc, f).
Proof. reflexivity. Qed.

Lemma readFromDev_loop_exact (bsize : Z) (fuel : nat) :
  forall rc tries acc f ok data f',
    0 <= tries ->
    readFromDev_loop fuel bsize rc tries acc f = Some (ok, data, f') ->
    exists k : nat,
      read_calls (dev f') = (read_calls (dev f) + k)%nat /\
      waited_ms f' = waited_ms f + 200 * Z.of_nat k /\
      file_data (dev f') = file_data (dev f) /\
      (ok = false -> Z.of_nat k = tries + 1) /\
      (ok = true -> Z.of_nat k <= tries).
Proof.
  induction fuel as [| fuel IH]; intros rc tries acc f ok data f' Ht H.
  - rewrite readFromDev_loop_O in H.
    destruct (rc <? bsize); [discriminate |]. inversion H; subst.
    exists 0%nat. repeat split; try lia; try discriminate.
  - rewrite readFromDev_loop_S in H.
    destruct (rc <? bsize).
    2: { inversion H; subst. exists 0%nat. repeat split; try lia; try discriminate. }
    destruct (Read (to_u32 (bsize - rc)) (dev f)) as [got d] eqn:R.
    apply Read_facts in R. destruct R as (Rd & _ & Rc & _).
    destruct (Z.ltb_spec (tries - 1) 0) as [Hneg | Hpos].
    + inversion H; subst. exists 1%nat.
      cbn [set_dev dev Server_wait waited_ms].
      repeat split; try lia; try assumption; try discriminate.
    + apply IH in H; [| lia].
      destruct H as (k & H1 & H2 & H3 & H4 & H5).
      cbn [set_dev dev Server_wait waited_ms] in *.
      exists (S k). repeat split; try lia; try congruence.
      * intro E. specialize (H4 E). lia.
      * intro E. specialize (H5 E). lia.
Qed.

Lemma readFromDev_exact (buf : char_ptr) (bsize : Z) (f f' : Filesystem) (ok : bool) :
  readFromDev buf bsize f = Some (ok, f') ->
  exists retries : nat,
    read_calls (dev f') = (read_calls (dev f) + 1 + retries)%nat /\
    waited_ms f' = waited_ms f + 200 * Z.of_nat retries /\
    file_data (dev f') = file_data (dev f) /\
    (ok = false -> retries = 21%nat) /\
    (ok = true -> (retries <= 20)%nat).
Proof.
  unfold readFromDev. destruct buf as [| a]; cbn [is_null]; [discriminate |].
  destruct (Read bsize (dev f)) as [got d] eqn:R.
  apply Read_facts in R. destruct R as (Rd & _ & Rc & _).
  destruct (readFromDev_loop _ _ _ _ _ _) as [[[ok' data] f1] |] eqn:E; [| discriminate].
  intro H; inversion H; subst; clear H.
  apply readFromDev_loop_exact in E; [| lia].
  destruct E as (k & H1 & H2 & H3 & H4 & H5).
  cbn [set_dev dev waited_ms store] in *.
  exists k. repeat split; try lia; try congruence.
  - intro E. specialize (H4 E). lia.
  - intro E. specialize (H5 E). lia.
Qed.

(** X8. [readFromDev] gives up only after the first read and exactly 21
    retries, each after a wait of 200 ms, 4200 ms in all; when it
    succeeds it has used at most 20 retries and the buffer holds the
    [bsize] bytes of the device that start at the offset of the call. *)
Theorem X8_readFromDev_outcomes (a : nat) (bsize : Z) (f f' : Filesystem) (ok : bool) :
  0 <= bsize < 2 ^ 32 -> 0 <= file_pos (dev f) ->
  readFromDev (Buf a) bsize f = Some (ok, f') ->
  (ok = false ->
   read_calls (dev f') = (read_calls (dev f) + 22)%nat /\
   waited_ms f' = waited_ms f + 4200) /\
  (ok = true ->
   (read_calls (dev f') <= read_calls (dev f) + 21)%nat /\
   waited_ms f' <= waited_ms f + 4000 /\
   firstn (Z.to_nat bsize) (contents f' a)
   = firstn (Z.to_nat bsize)
            (skipn (Z.to_nat (file_pos (dev f))) (file_data (dev f))) /\
   length (firstn (Z.to_nat bsize) (contents f' a)) = Z.to_nat bsize).
Proof.
  intros Hb Hp H.
  destruct (readFromDev_exact _ _ _ _ _ H) as (k & H1 & H2 & _ & H4 & H5).
  split.
  - intro E. specialize (H4 E). subst. lia.
  - intro E. specialize (H5 E). subst ok.
    destruct (readFromDev_true_reads_block a bsize f f' Hb Hp H) as [C1 C2].
    repeat split; try lia; assumption.
Qed.

Lemma Seek_facts (pos : Z) (d d' : IFile) (b : bool) :
  Seek pos d = (b, d') ->
  file_data d' = file_data d /\ read_calls d' = read_calls d /\
  (b = true -> file_pos d' = pos) /\ (b = false -> d' = d).
Proof.
  unfold Seek. destruct (seek_fails d pos); intro H; inversion H; subst; cbn;
    repeat split; auto; discriminate.
Qed.

Lemma getBuffer_dev (f : Filesystem) :
  dev (snd (getBuffer f)) = dev f /\ waited_ms (snd (getBuffer f)) = waited_ms f.
Proof. unfold getBuffer. destruct (buffers f); cbn; split; reflexivity. Qed.

Lemma releaseBuffer_dev (p : char_ptr) (f : Filesystem) :
  dev (releaseBuffer p f) = dev f.
Proof.
  unfold releaseBuffer.
  destruct (Z.of_nat (length (buffers f)) <? max_idle_buffers); [reflexivity |].
  destruct p; reflexivity.
Qed.

(** What a return of [readBlock] tells. *)
Lemma readBlock_cases (i : Z) (f f' : Filesystem) (p : char_ptr) :
  readBlock i f = RB_return p f' ->
  file_data (dev f') = file_data (dev f) /\
  ((has_bit i = Some false /\ p = NULL /\ f' = f) \/
   (has_bit i = Some true /\ readahead_thread f = false /\
    fst (Seek (i * blocksize) (dev f)) = false /\ p = NULL /\
    f' = set_has_error true f) \/
   (has_bit i = Some true /\ readahead_thread f = false /\
    fst (Seek (i * blocksize) (dev f)) = true /\
    exists f1 ok,
      readFromDev (fst (getBuffer f)) (to_u32 blocksize)
                  (set_dev (snd (Seek (i * blocksize) (dev f)))
                           (snd (getBuffer f)))
      = Some (ok, f1) /\
      ((ok = false /\ p = NULL /\ f' = set_has_error true f1) \/
       (ok = true /\ p = fst (getBuffer f) /\ f' = f1)))).
Proof.
  unfold readBlock.
  destruct (has_bit i) as [[|] |]; [| | discriminate].
  - destruct (readahead_thread f); cbn [negb]; [discriminate |].
    destruct (Seek (i * blocksize) (dev f)) as [b d] eqn:S.
    pose proof (Seek_facts _ _ _ _ S) as (Sd & _ & _ & Sf).
    destruct b; cbn [negb fst snd].
    + assert (G : getBuffer (set_dev d f)
                  = (fst (getBuffer f), set_dev d (snd (getBuffer f)))).
      { unfold getBuffer. cbn [set_dev buffers].
        destruct (buffers f); reflexivity. }
      rewrite G.
      destruct (readFromDev _ _ _) as [[ok f1] |] eqn:R; [| discriminate].
      pose proof (readFromDev_exact _ _ _ _ _ R) as (_ & _ & _ & Rd & _).
      assert (Hd : file_data (dev f1) = file_data (dev f)).
      { rewrite Rd. cbn [set_dev dev]. exact Sd. }
      destruct ok; intro H; inversion H; subst.
      * split; [exact Hd |]. right. right. repeat split.
        exists f', true. split; [reflexivity |]. right. repeat split.
      * split; [exact Hd |]. right. right. repeat split.
        exists f1, false. split; [reflexivity |]. left. repeat split.
    + intro H; inversion H; subst. rewrite (Sf eq_refl).
      split; [reflexivity |]. right. left. repeat split.
  - intro H; inversion H; subst. split; [reflexivity |]. left. repeat split.
Qed.

Lemma readBlock_buffer_content (i : Z) (f f' : Filesystem) (a : nat) :
  0 <= blocksize < 2 ^ 32 -> 0 <= i * blocksize ->
  readBlock i f = RB_return (Buf a) f' ->
  has_error f' = has_error f /\
  firstn (Z.to_nat blocksize) (contents f' a) = device_block i (dev f) /\
  length (device_block i (dev f)) = Z.to_nat blocksize.
Proof.
  intros Hb Hp H.
  destruct (readBlock_cases _ _ _ _ H) as [_ [C | [C | C]]].
  - destruct C as (_ & E & _). discriminate.
  - destruct C as (_ & _ & _ & E & _). discriminate.
  - destruct C as (_ & _ & Hs & f1 & ok & R & [(_ & E & _) | (-> & E & ->)]);
      [discriminate |].
    rewrite <- E in R.
    destruct (Seek (i * blocksize) (dev f)) as [b d] eqn:S.
    cbn [fst snd] in *. subst b.
    destruct (Seek_facts _ _ _ _ S) as (Sd & _ & Sp & _).
    specialize (Sp eq_refl).
    pose proof (readFromDev_frame _ _ _ _ _ R) as (_ & Re & _).
    pose proof (getBuffer_frame f) as (Ge & _).
    rewrite to_u32_small in R by lia.
    apply readFromDev_true_reads_block in R; [| lia | cbn [set_dev dev]; lia].
    cbn [set_dev dev has_error] in *.
    destruct R as [R1 R2]. unfold device_block.
    rewrite Sp, Sd in R1.
    split; [congruence |]. split; [exact R1 |]. now rewrite <- R1.
Qed.

(** X9. With a block size that fits the [_u32] it is cast to at line 328
    and a block whose byte offset [i*blocksize] is not negative: a buffer
    returned by [readBlock] holds the bytes of the device from offset
    [i*blocksize] on, a full block of them; the bit of the block is set
    and the error flag is as it was. *)
Theorem X9_readBlock_returns_device_block
        (i : Z) (f f' : Filesystem) (a : nat) :
  0 <= blocksize < 2 ^ 32 -> 0 <= i * blocksize ->
  readBlock i f = RB_return (Buf a) f' ->
  has_bit i = Some true /\
  hasError f' = hasError f /\
  firstn (Z.to_nat blocksize) (contents f' a) = device_block i (dev f) /\
  length (device_block i (dev f)) = Z.to_nat blocksize.
Proof.
  intros Hb Hp H. split.
  - apply (readBlock_return i f f' (Buf a) H). discriminate.
  - now apply readBlock_buffer_content.
Qed.

(** X10. A null result of [readBlock] has one of three causes.  The bit of
    the block is unset: nothing has changed.  The seek failed: the error
    flag is set, no read was issued and the pool is untouched.  The read
    failed: the error flag is set after exactly 22 reads and 4200 ms of
    waiting. *)
Theorem X10_readBlock_null_outcomes (i : Z) (f f' : Filesystem) :
  readBlock i f = RB_return NULL f' ->
  (has_bit i = Some false /\ f' = f) \/
  (has_bit i = Some true /\ hasError f' = true /\
   buffers f' = buffers f /\ read_calls (dev f') = read_calls (dev f) /\
   waited_ms f' = waited_ms f) \/
  (has_bit i = Some true /\ hasError f' = true /\
   read_calls (dev f') = (read_calls (dev f) + 22)%nat /\
   waited_ms f' = waited_ms f + 4200).
Proof.
  intro H. unfold hasError.
  destruct (readBlock_cases _ _ _ _ H) as [_ [C | [C | C]]].
  - destruct C as (Hb & _ & E). left. split; assumption.
  - destruct C as (Hb & _ & _ & _ & ->). right. left.
    cbn. repeat split. exact Hb.
  - destruct C as (Hb & _ & Hs & f1 & ok & R & [(-> & _ & ->) | (-> & E & ->)]).
    + right. right. cbn [has_error set_has_error dev waited_ms].
      destruct (readFromDev_exact _ _ _ _ _ R) as (k & H1 & H2 & _ & H4 & _).
      specialize (H4 eq_refl). subst k.
      destruct (Seek (i * blocksize) (dev f)) as [b d] eqn:S.
      destruct (Seek_facts _ _ _ _ S) as (_ & Sc & _).
      destruct (getBuffer_dev f) as [_ Gw].
      cbn [set_dev dev waited_ms fst snd] in *.
      repeat split; [exact Hb | lia | lia].
    + apply readFromDev_frame in R. destruct R as [Hn _].
      exfalso. apply Hn. now symmetry.
Qed.

(** *** More on [readBlocks] *)

Lemma set_nth_length {A : Type} (x : A) :
  forall l n, length (set_nth n x l) = length l.
Proof.
  induction l as [| h t IH]; intro n; [destruct n; reflexivity |].
  destruct n; simpl; [reflexivity | now rewrite IH].
Qed.

Lemma set_nth_same {A : Type} (x : A) :
  forall l n, (n < length l)%nat -> nth_error (set_nth n x l) n = Some x.
Proof.
  induction l as [| h t IH]; intros n Hn; [simpl in Hn; lia |].
  destruct n; simpl; [reflexivity |]. apply IH. simpl in Hn. lia.
Qed.

Lemma set_nth_other {A : Type} (x : A) :
  forall l n k, k <> n -> nth_error (set_nth n x l) k = nth_error l k.
Proof.
  induction l as [| h t IH]; intros n k Hk; [destruct n; reflexivity |].
  destruct n, k; simpl; try reflexivity; [contradiction |].
  apply IH. congruence.
Qed.

(** A range without a set bit: nothing is read and nothing changes. *)
Lemma readBlocks_loop_absent (off : nat) (count : nat) :
  forall i st,
    (forall j, i <= j < i + Z.of_nat count -> has_bit j = Some false) ->
    readBlocks_loop count off i st = Some st.
Proof.
  induction count as [| count IH]; intros i st Hall; cbn [readBlocks_loop];
    [reflexivity |].
  unfold readBlocks_body, readBlock. rewrite (Hall i) by lia.
  destruct st as [c r d f]. cbn [rb_currbuf rb_ret rb_dests rb_fs].
  apply IH. intros j Hj. apply Hall. lia.
Qed.

(** X11. [readBlocks] over a range in which no block is marked returns the
    empty list and leaves the destination buffers, the pool, the device
    and the error flag as they are, with or without readahead. *)
Theorem X11_readBlocks_absent_range
        (start : Z) (n : nat) (dests : list (list Z)) (off : nat) (f : Filesystem) :
  (forall j, start <= j < start + Z.of_nat n -> hasBlock j = Some false) ->
  readBlocks start n dests off f = Some (mkRBS 0 [] dests f).
Proof.
  intro Hall. unfold readBlocks. now apply readBlocks_loop_absent.
Qed.

Lemma device_block_ext (i : Z) (d d' : IFile) :
  file_data d = file_data d' -> device_block i d = device_block i d'.
Proof. intro E. unfold device_block. now rewrite E. Qed.

Lemma readBlocks_body_step (off : nat) (i : Z) (st st' : readBlocks_state) :
  0 <= blocksize < 2 ^ 32 -> 0 <= i ->
  readBlocks_body off i st = Some st' ->
  file_data (dev (rb_fs st')) = file_data (dev (rb_fs st)) /\
  ((rb_ret st' = rb_ret st /\ rb_currbuf st' = rb_currbuf st /\
    rb_dests st' = rb_dests st) \/
   (rb_ret st' = rb_ret st ++ [i] /\ rb_currbuf st' = S (rb_currbuf st) /\
    exists dst,
      nth_error (rb_dests st) (rb_currbuf st) = Some dst /\
      (off + Z.to_nat blocksize <= length dst)%nat /\
      rb_dests st'
      = set_nth (rb_currbuf st)
                (firstn off dst ++ device_block i (dev (rb_fs st))
                   ++ skipn (off + Z.to_nat blocksize) dst)
                (rb_dests st))).
Proof.
  intros Hb Hi. unfold readBlocks_body.
  destruct (readBlock i (rb_fs st)) as [p f' | b |] eqn:R; try discriminate.
  pose proof (readBlock_cases _ _ _ _ R) as [Hd _].
  destruct p as [| a].
  - intro H; inversion H; subst; cbn. split; [exact Hd |]. left. repeat split.
  - destruct (nth_error (rb_dests st) (rb_currbuf st)) as [dst |] eqn:N;
      [| discriminate].
    rewrite to_u32_small by lia.
    destruct (memcpy_at off (Z.to_nat blocksize) (contents f' a) dst)
      as [dst' |] eqn:M; [| discriminate].
    intro H; inversion H; subst; cbn.
    rewrite releaseBuffer_dev. split; [exact Hd |]. right.
    split; [reflexivity |]. split; [reflexivity |].
    unfold memcpy_at in M.
    destruct (Nat.leb_spec (off + Z.to_nat blocksize) (length dst)) as [Hfit | _];
      [| discriminate].
    destruct (Z.to_nat blocksize <=? length (contents f' a))%nat; [| discriminate].
    cbn [andb] in M. inversion M; subst dst'.
    exists dst. split; [reflexivity |]. split; [exact Hfit |].
    apply readBlock_buffer_content in R; [| lia | nia].
    destruct R as (_ & Rc & _). now rewrite Rc.
Qed.

Lemma readBlocks_loop_dests (off : nat) (count : nat) :
  0 <= blocksize < 2 ^ 32 ->
  forall i st st',
    0 <= i ->
    readBlocks_loop count off i st = Some st' ->
    exists added : list Z,
      rb_ret st' = rb_ret st ++ added /\
      rb_currbuf st' = (rb_currbuf st + length added)%nat /\
      file_data (dev (rb_fs st')) = file_data (dev (rb_fs st)) /\
      length (rb_dests st') = length (rb_dests st) /\
      (forall k, (k < rb_currbuf st \/ rb_currbuf st + length added <= k)%nat ->
                 nth_error (rb_dests st') k = nth_error (rb_dests st) k) /\
      (forall j, (j < length added)%nat ->
                 exists dst,
                   nth_error (rb_dests st) (rb_currbuf st + j) = Some dst /\
                   (off + Z.to_nat blocksize <= length dst)%nat /\
                   nth_error (rb_dests st') (rb_currbuf st + j)
                   = Some (firstn off dst
                             ++ device_block (nth j added 0) (dev (rb_fs st))
                             ++ skipn (off + Z.to_nat blocksize) dst)).
Proof.
  intro Hb. induction count as [| count IH]; intros i st st' Hi H;
    cbn [readBlocks_loop] in H.
  - inversion H; subst. exists []. cbn [length].
    rewrite app_nil_r, Nat.add_0_r.
    repeat split; auto; intros; lia.
  - destruct (readBlocks_body off i st) as [st1 |] eqn:B; [| discriminate].
    apply readBlocks_body_step in B; [| exact Hb | exact Hi].
    destruct B as [Hd Hcase].
    destruct (IH (i + 1) st1 st' ltac:(lia) H)
      as (added & A1 & A2 & A3 & A4 & A7 & A8).
    destruct Hcase as [(Hr & Hc & Hds) | (Hr & Hc & dst & Hn & Hfit & Hds)].
    + exists added. rewrite Hr, Hc, Hds in *.
      split; [exact A1 |]. split; [exact A2 |]. split; [congruence |].
      split; [exact A4 |]. split; [exact A7 |].
      intros j Hj. destruct (A8 j Hj) as (d0 & E1 & E0 & E2).
      exists d0. split; [exact E1 |]. split; [exact E0 |].
      rewrite E2. now rewrite (device_block_ext _ _ _ Hd).
    + assert (Hlen : (rb_currbuf st < length (rb_dests st))%nat).
      { apply nth_error_Some. congruence. }
      exists (i :: added). rewrite Hr, Hc in *. cbn [length].
      split; [rewrite A1, <- app_assoc; reflexivity |].
      split; [lia |]. split; [congruence |].
      split; [rewrite A4, Hds; apply set_nth_length |].
      split.
      { intros k Hk. rewrite A7 by lia. rewrite Hds.
        apply set_nth_other. lia. }
      intros [| j] Hj.
      * exists dst. rewrite Nat.add_0_r. split; [exact Hn |].
        split; [exact Hfit |].
        rewrite A7 by lia. rewrite Hds. cbn [nth].
        now apply set_nth_same.
      * destruct (A8 j ltac:(lia)) as (d0 & E1 & E0 & E2).
        exists d0.
        replace (rb_currbuf st + S j)%nat with (S (rb_currbuf st) + j)%nat by lia.
        split.
        -- rewrite <- E1, Hds. symmetry. apply set_nth_other. lia.
        -- split; [exact E0 |].
           rewrite E2. cbn [nth]. now rewrite (device_block_ext _ _ _ Hd).
Qed.

Lemma readBlocks_loop_order (off : nat) (count : nat) :
  forall i st st',
    readBlocks_loop count off i st = Some st' ->
    exists added : list Z,
      rb_ret st' = rb_ret st ++ added /\
      (forall j, (j < length added)%nat ->
                 i <= nth j added 0 < i + Z.of_nat count) /\
      (forall j1 j2, (j1 < j2 < length added)%nat ->
                     nth j1 added 0 < nth j2 added 0).
Proof.
  induction count as [| count IH]; intros i st st' H; cbn [readBlocks_loop] in H.
  - inversion H; subst. exists []. rewrite app_nil_r. cbn [length].
    repeat split; intros; lia.
  - destruct (readBlocks_body off i st) as [st1 |] eqn:B; [| discriminate].
    apply readBlocks_body_cases in B. destruct B as [_ Hcase].
    destruct (IH (i + 1) st1 st' H) as (added & A1 & A5 & A6).
    destruct Hcase as [(Hr & _) | (Hr & _)].
    + exists added. rewrite Hr in A1. split; [exact A1 |]. split; [| exact A6].
      intros j Hj. specialize (A5 j Hj). lia.
    + exists (i :: added). rewrite Hr in A1. cbn [length].
      split; [rewrite A1, <- app_assoc; reflexivity |]. split.
      * intros [| j] Hj; cbn [nth]; [lia |].
        specialize (A5 j ltac:(lia)). lia.
      * intros [| j1] [| j2] Hj; cbn [nth]; try lia.
        -- specialize (A5 j2 ltac:(lia)). lia.
        -- apply A6. lia.
Qed.

(** X12. The list returned by [readBlocks] is strictly ascending. *)
Theorem X12_readBlocks_list_ascending
        (start : Z) (n : nat) (dests : list (list Z)) (off : nat)
        (f : Filesystem) (st : readBlocks_state) :
  readBlocks start n dests off f = Some st ->
  forall j1 j2, (j1 < j2 < length (rb_ret st))%nat ->
                nth j1 (rb_ret st) 0 < nth j2 (rb_ret st) 0.
Proof.
  intro H. unfold readBlocks in H.
  apply readBlocks_loop_order in H.
  destruct H as (added & A1 & _ & A6).
  cbn [rb_ret app] in A1. rewrite A1. exact A6.
Qed.

(** X13. With a block size that fits the [_u32] it is cast to and a
    start index that is not negative, when [readBlocks] returns: the
    [k]-th destination buffer had room for a block at [buffer_offset] and
    now holds there the bytes the device has for the [k]-th block of the
    returned list, the bytes before and after being as they were;
    destination buffers beyond the returned blocks are not touched, and
    none is added or removed.  (A destination buffer without room for the
    block is written past its end: the call is then undefined and has no
    result here.) *)
Theorem X13_readBlocks_fills_destinations
        (start : Z) (n : nat) (dests : list (list Z)) (off : nat)
        (f : Filesystem) (st : readBlocks_state) :
  0 <= blocksize < 2 ^ 32 -> 0 <= start ->
  readBlocks start n dests off f = Some st ->
  length (rb_dests st) = length dests /\
  (forall k, (k < length (rb_ret st))%nat ->
             exists dst,
               nth_error dests k = Some dst /\
               (off + Z.to_nat blocksize <= length dst)%nat /\
               nth_error (rb_dests st) k
               = Some (firstn off dst
                         ++ device_block (nth k (rb_ret st) 0) (dev f)
                         ++ skipn (off + Z.to_nat blocksize) dst)) /\
  (forall k, (length (rb_ret st) <= k)%nat ->
             nth_error (rb_dests st) k = nth_error dests k).
Proof.
  intros Hb Hs H. unfold readBlocks in H.
  apply readBlocks_loop_dests in H; [| exact Hb | exact Hs].
  destruct H as (added & A1 & _ & _ & A4 & A7 & A8).
  cbn [rb_ret rb_currbuf rb_dests rb_fs app Nat.add] in *. rewrite A1.
  split; [exact A4 |]. split.
  - intros k Hk. exact (A8 k Hk).
  - intros k Hk. apply A7. right. exact Hk.
Qed.

(** *** More on the readahead machine *)

(** X14. [stop()] ends a task that is paused by backpressure: from any state
    with the task blocked at line 93 and the mutex free, [stop()] and two
    moves of the task take it out of its loop, with the mutex released
    and the cache as it was. *)
Theorem X14_stop_ends_backpressure_wait (it1 it2 : bool) (s : System) :
  task s = T_bp_wait -> mutex s = None ->
  exists s',
    run [E_stop; E_task it1; E_task it2] s = Some s' /\
    task s' = T_exit /\ mutex s' = None /\
    do_stop (ra s') = true /\ read_blocks (ra s') = read_blocks (ra s).
Proof.
  destruct s as [f r mx t c]. cbn [task mutex]. intros -> ->.
  eexists. split; [reflexivity |]. cbn. repeat split.
Qed.

(** X15. A miss overrides the backpressure pause: with the task blocked at
    line 93, whatever the size of the cache, a thread at the head of the
    loop of [getBlock(b)] that does not find [b] sets the target to [b],
    flags the miss and wakes the task; the task then leaves the pause and
    reaches line 106 with target [b], four moves later. *)
Theorem X15_miss_overrides_backpressure
        (it : bool) (s : System) (i : nat) (b : Z) :
  task s = T_bp_wait ->
  nth_error (callers s) i = Some (b, G_loop NULL) ->
  map_find b (read_blocks (ra s)) = None ->
  do_stop (ra s) = false ->
  b <> -1 ->
  exists s',
    run [E_caller i; E_task it; E_task it; E_task it; E_task it] s = Some s' /\
    task s' = T_stop2 /\
    current_block (ra s') = b /\ readahead_miss (ra s') = true /\
    read_blocks (ra s') = read_blocks (ra s) /\
    nth_error (callers s') i = Some (b, G_wait NULL).
Proof.
  destruct s as [f [m miss cb ds] mx t c].
  cbn [task callers ra read_blocks do_stop]. intros -> Hn Hf -> Hb.
  cbn [run exec callers]. rewrite Hn.
  cbn [getBlock_step is_null ra read_blocks]. rewrite Hf.
  unfold readaheadFromInt, notify_start. cbn.
  rewrite andb_false_r. cbn.
  destruct (Z.eqb_spec b (-1)) as [E | _]; [contradiction |]. cbn.
  eexists. split; [reflexivity |]. cbn. repeat split.
  apply set_nth_same. apply nth_error_Some. congruence.
Qed.

(** X16. With readahead on, no request for a marked block is ever served: in
    every state reachable from the constructor the cache is empty, the
    task is not at the lines that store a block and signal the miss, and
    each thread inside [getBlock] asked for a marked block and is still
    waiting for the mutex, at the head of the loop with [ret==NULL], or
    blocked on [read_block_cond]. *)
Theorem X16_readahead_never_serves (d : IFile) (s : System) :
  reachable d s ->
  read_blocks (ra s) = [] /\
  (forall buf, task s <> T_relock buf) /\
  (forall i b pc,
      nth_error (callers s) i = Some (b, pc) ->
      hasBlock b = Some true /\
      (pc = G_lock \/ pc = G_loop NULL \/ pc = G_wait NULL)).
Proof.
  intro H. apply reachable_inv in H. destruct H as (Hm & _ & _ & Ht & Hf).
  split; [exact Hm |]. split.
  - intros buf E. unfold task_ok in Ht. now rewrite E in Ht.
  - intros i b pc Hn. apply nth_error_In in Hn.
    rewrite Forall_forall in Hf. destruct (Hf _ Hn) as [Hb Hpc].
    cbn [fst snd] in *. split; [exact Hb |].
    destruct pc as [| [| a] | [| a] | r | r]; try contradiction; auto.
Qed.

(** X17. Whatever the cache and the bitmap, the do-while of lines 109-116
    does not look at the cache: if the comparison of the unassigned
    iterator is false the target is left as it is, cached or not, and the
    task goes on to line 118; if it is true the loop is never left. *)
Theorem X17_advance_loop_blind (s : System) :
  task s = T_stop2 -> do_stop (ra s) = false ->
  (task (task_run false 2 s) = T_found /\
   ra (task_run false 2 s) = ra s /\ fs (task_run false 2 s) = fs s) /\
  (forall n, in_advance_loop (task (task_run true (S n) s)) = true).
Proof.
  destruct s as [f r mx t c]. cbn [task ra]. intros -> Hs.
  assert (E : forall it,
             task_step it (mkSystem f r mx T_stop2 c)
             = Some (mkSystem f r mx (T_advance it) c)).
  { intro it. unfold task_step. cbn [task ra]. now rewrite Hs. }
  split.
  - cbn [task_run]. rewrite E. cbn. repeat split.
  - intro n. cbn [task_run]. rewrite E.
    apply advance_loop_stays. reflexivity.
Qed.

Lemma readBlocks_loop_error (off : nat) (count : nat) :
  forall i st st',
    readBlocks_loop count off i st = Some st' ->
    exists added : list Z,
      rb_ret st' = rb_ret st ++ added /\
      (forall x, In x added -> i <= x < i + Z.of_nat count) /\
      (has_error (rb_fs st) = false -> has_error (rb_fs st') = true ->
       exists x, i <= x < i + Z.of_nat count /\ has_bit x = Some true /\
                 ~ In x added).
Proof.
  induction count as [| count IH]; intros i st st' H; cbn [readBlocks_loop] in H.
  - inversion H; subst. exists []. rewrite app_nil_r.
    split; [reflexivity |]. split; [intros x [] |].
    intros E1 E2. congruence.
  - destruct (readBlocks_body off i st) as [st1 |] eqn:B; [| discriminate].
    destruct (IH _ _ _ H) as (added & A1 & A2 & A3).
    pose proof (readBlocks_body_cases _ _ _ _ B) as [_ Hcase].
    unfold readBlocks_body in B.
    destruct (readBlock i (rb_fs st)) as [p f1 | b |] eqn:R; try discriminate.
    destruct p as [| a].
    + inversion B; subst st1. cbn [rb_ret rb_fs] in *.
      exists added. split; [exact A1 |]. split.
      { intros x Hx. specialize (A2 x Hx). lia. }
      intros E1 E2. destruct (has_error f1) eqn:E.
      * exists i. split; [lia |]. split.
        -- destruct (readBlock_cases _ _ _ _ R) as [_ [C | [C | C]]].
           ++ destruct C as (_ & _ & ->). congruence.
           ++ apply C.
           ++ apply C.
        -- intro Hin. specialize (A2 i Hin). lia.
      * destruct (A3 eq_refl E2) as (x & Hx & Hb & Hn).
        exists x. split; [lia |]. split; assumption.
    + destruct (nth_error (rb_dests st) (rb_currbuf st)); [| discriminate].
      destruct (memcpy_at _ _ _ _); [| discriminate].
      inversion B; subst st1. cbn [rb_ret rb_fs] in *.
      exists (i :: added). split; [rewrite A1, <- app_assoc; reflexivity |].
      split.
      { intros x [<- | Hx]; [lia |]. specialize (A2 x Hx). lia. }
      intros E1 E2.
      assert (E : has_error (releaseBuffer (Buf a) f1) = false).
      { rewrite (proj1 (releaseBuffer_frame (Buf a) f1)).
        destruct (readBlock_cases _ _ _ _ R) as [_ [C | [C | C]]].
        - destruct C as (_ & Ep & _). discriminate.
        - destruct C as (_ & _ & _ & Ep & _). discriminate.
        - destruct C as (_ & _ & _ & f2 & ok & Rd & [(_ & Ep & _) | (-> & _ & ->)]);
            [discriminate |].
          apply readFromDev_frame in Rd. destruct Rd as (_ & Re & _).
          rewrite Re. cbn [set_dev has_error].
          rewrite (proj1 (getBuffer_frame (rb_fs st))). exact E1. }
      destruct (A3 E E2) as (x & Hx & Hb & Hn).
      exists x. split; [lia |]. split; [exact Hb |].
      intros [<- | Hin]; [lia | contradiction].
Qed.

(** X18. The error flag after [readBlocks] is exact: it is never cleared, and
    when it was unset before the call, it is set afterwards if and only
    if a marked block of the range is missing from the returned list. *)
Theorem X18_readBlocks_error_flag_exact
        (start : Z) (n : nat) (dests : list (list Z)) (off : nat)
        (f : Filesystem) (st : readBlocks_state) :
  readBlocks start n dests off f = Some st ->
  (hasError f = true -> hasError (rb_fs st) = true) /\
  (hasError f = false ->
   (hasError (rb_fs st) = true <->
    exists x, start <= x < start + Z.of_nat n /\ hasBlock x = Some true /\
              ~ In x (rb_ret st))).
Proof.
  unfold readBlocks, hasError, hasBlock. intro H.
  pose proof (readBlocks_loop_spec _ _ _ _ _ H eq_refl) as (_ & _ & _ & P4 & P5).
  destruct (readBlocks_loop_error _ _ _ _ _ H) as (added & A1 & _ & A3).
  cbn [rb_ret rb_fs app] in *.
  split; [exact P4 |]. intro E. split.
  - intro E2. rewrite A1. exact (A3 E E2).
  - intros (x & Hx & Hb & Hn).
    destruct (P5 x Hx Hb) as [Hin | He]; [contradiction | exact He].
Qed.
End Image.

(** ** The code on concrete inputs *)

(** C1, on the code. [getBlock(5)] with block 5 in the cache: the call
    takes the mutex, finds the entry and erases it, but the pointer goes
    to the variable declared inside the [if]; the [ret] tested by the
    [while] is still [NULL], the buffer is in no pool and was not deleted,
    and the next pass takes the miss path: it sets the target to 5, flags
    a miss and blocks on [read_block_cond].  From the head of the [while]
    with [ret==NULL] every move leads back to it or to the wait, so the
    [return] of line 166 is never reached. *)
Theorem C1_getBlock_drops_cached_buffer :
  exists s1 s2 s3,
    getBlock_step (Caller 0) 5 G_lock
      (demo_system [(5, Buf 0)] (-1) false None T_idle_wait [(5, G_lock)])
    = Some (G_loop NULL, s1) /\
    map_find 5 (read_blocks (ra s1)) = Some (Buf 0) /\
    getBlock_step (Caller 0) 5 (G_loop NULL) s1 = Some (G_loop NULL, s2) /\
    read_blocks (ra s2) = [] /\
    buffers (fs s2) = [] /\ deleted (fs s2) = [] /\
    getBlock_step (Caller 0) 5 (G_loop NULL) s2 = Some (G_wait NULL, s3) /\
    readahead_miss (ra s3) = true /\ current_block (ra s3) = 5 /\
    (forall me block s,
        match getBlock_step me block (G_loop NULL) s with
        | Some (pc, _) => pc = G_loop NULL \/ pc = G_wait NULL
        | None => False
        end) /\
    (forall me block s,
        match getBlock_step me block (G_woken NULL) s with
        | Some (pc, _) => pc = G_loop NULL
        | None => True
        end).
Proof.
  do 3 eexists.
  split; [reflexivity |]. split; [reflexivity |]. split; [reflexivity |].
  split; [reflexivity |]. split; [reflexivity |]. split; [reflexivity |].
  split; [reflexivity |]. split; [reflexivity |]. split; [reflexivity |].
  split.
  - intros me block s. simpl.
    destruct (map_find block (read_blocks (ra s))); auto.
  - intros me block s. simpl. destruct (mutex s); auto.
Qed.

(** C3, on the code. The task reaches line 108 with target 0, block 0
    in the cache and blocks 0 and 1 marked in the bitmap; the described
    loop would move the target to 1.  With the comparison of the
    unassigned iterator false, the loop ends at once and the target is
    still 0, a key of the cache; with the comparison true the target
    cycles through 1, -1, 0 and the loop is never left. *)
Theorem C3_advance_loop_ignores_cache :
  spec_advance demo_bitmap 4 8 0 [(0, Buf 0)] = 1 /\
  task (task_run demo_bitmap 4 8 false 2
          (demo_system [(0, Buf 0)] 0 false (Some Task) T_stop2 [])) = T_found /\
  current_block
    (ra (task_run demo_bitmap 4 8 false 2
           (demo_system [(0, Buf 0)] 0 false (Some Task) T_stop2 []))) = 0 /\
  map (fun n =>
         current_block
           (ra (task_run demo_bitmap 4 8 true n
                  (demo_system [(0, Buf 0)] 0 false (Some Task) T_stop2 []))))
      [1; 2; 3; 4; 5]%nat = [0; 1; -1; 0; 1] /\
  (forall n,
      task (task_run demo_bitmap 4 8 true n
              (demo_system [(0, Buf 0)] 0 false (Some Task) T_stop2 []))
      <> T_found).
Proof.
  split; [reflexivity |]. split; [reflexivity |]. split; [reflexivity |].
  split; [reflexivity |].
  intros [| n] E; [discriminate |].
  change (task_run demo_bitmap 4 8 true (S n)
            (demo_system [(0, Buf 0)] 0 false (Some Task) T_stop2 []))
    with (task_run demo_bitmap 4 8 true n
            (demo_system [(0, Buf 0)] 0 false (Some Task) (T_advance true) []))
    in E.
  pose proof (advance_loop_stays demo_bitmap 4 8 n
                (demo_system [(0, Buf 0)] 0 false (Some Task) (T_advance true) [])
                eq_refl) as H.
  rewrite E in H. discriminate.
Qed.

(** C4, on the code. Direct path, block 0 marked, a device that delivers
    nothing.  With one idle buffer in the pool, [readBlock] takes it, the
    read fails, the error flag is set and [NULL] is returned: the pool is
    left empty and nothing was deleted, so the buffer is lost.  With an
    empty pool the buffer is allocated (the next address moves on) and is
    lost the same way. *)
Theorem C4_readBlock_failure_loses_buffer :
  match readBlock demo_bitmap 4 0
          (mkFilesystem (demo_dev []) false [Buf 0] false 1 [] (fun _ => []) 0) with
  | RB_return p f =>
      p = NULL /\ has_error f = true /\
      buffers f = [] /\ deleted f = [] /\ next_addr f = 1%nat
  | _ => False
  end /\
  match readBlock demo_bitmap 4 0 (Filesystem_new (demo_dev []) false) with
  | RB_return p f =>
      p = NULL /\ has_error f = true /\
      buffers f = [] /\ deleted f = [] /\ next_addr f = 1%nat
  | _ => False
  end.
Proof. split; vm_compute; repeat split. Qed.

(** C6, on the code. A block of four bytes.  Delivered in three
    fragments it is reassembled by three reads; delivered at the 20th
    retry it is accepted after 21 reads.  A device that delivers nothing
    is read 22 times, once and then 21 retries, each after a wait of
    200 ms; and a block completed by the 21st retry is in the buffer but
    reported as a failure. *)
Theorem C6_readFromDev_retries_21_times :
  match readFromDev (Buf 0) 4 (Filesystem_new (demo_dev [1; 2; 4]) false) with
  | Some (ok, f) =>
      ok = true /\ contents f 0%nat = [10; 11; 12; 13] /\
      read_calls (dev f) = 3%nat
  | None => False
  end /\
  match readFromDev (Buf 0) 4
          (Filesystem_new (demo_dev (repeat 0 20 ++ [4])) false) with
  | Some (ok, f) =>
      ok = true /\ contents f 0%nat = [10; 11; 12; 13] /\
      read_calls (dev f) = 21%nat
  | None => False
  end /\
  match readFromDev (Buf 0) 4 (Filesystem_new (demo_dev []) false) with
  | Some (ok, f) =>
      ok = false /\ read_calls (dev f) = 22%nat /\ waited_ms f = 21 * 200
  | None => False
  end /\
  match readFromDev (Buf 0) 4
          (Filesystem_new (demo_dev (repeat 0 21 ++ [4])) false) with
  | Some (ok, f) =>
      ok = false /\ contents f 0%nat = [10; 11; 12; 13] /\
      read_calls (dev f) = 22%nat
  | None => False
  end.
Proof. split; [| split; [| split]]; vm_compute; repeat split. Qed.

(** C5, on the code. First the machine from the constructor: a thread
    asks for block 0 and blocks on the miss; the task wakes, targets
    block 0 and calls [fs.readBlock(0)], which, the readahead thread
    being set, calls [getBlock(0)] on the task's own thread and blocks
    there on [read_block_cond].  The miss flag is still set, nothing was
    notified, and neither thread has a move.  Then lines 122-129 taken on
    their own, from the state where the read has handed back [NULL] with
    the error flag set: the task stores the null entry, clears the miss
    flag and wakes the thread; the thread erases the entry, finds [ret]
    still [NULL] and takes the miss path again, without a look at the
    error flag: it is back in the wait with the same target. *)
Theorem C5_failed_fetch_leaves_consumer_waiting :
  (exists s,
      run demo_bitmap 4 8
          [E_task false; E_task false; E_task false; E_task false;
           E_call 0; E_caller 0; E_caller 0;
           E_task false; E_task false; E_task false; E_task false;
           E_task false; E_task false; E_task false; E_task false]
          (System_new (demo_dev [])) = Some s /\
      task s = T_getBlock 0 (G_wait NULL) /\
      callers s = [(0, G_wait NULL)] /\
      readahead_miss (ra s) = true /\ read_blocks (ra s) = [] /\
      (forall it, exec demo_bitmap 4 8 (E_task it) s = None) /\
      exec demo_bitmap 4 8 (E_caller 0) s = None) /\
  (exists s1 s2,
      run demo_bitmap 4 8 [E_task false] demo_failed_fetch = Some s1 /\
      read_blocks (ra s1) = [(0, NULL)] /\
      readahead_miss (ra s1) = false /\
      callers s1 = [(0, G_woken NULL)] /\
      run demo_bitmap 4 8
          [E_task false; E_task false; E_task false; E_task false;
           E_task false; E_task false;
           E_caller 0; E_caller 0; E_caller 0] s1 = Some s2 /\
      callers s2 = [(0, G_wait NULL)] /\
      read_blocks (ra s2) = [] /\
      readahead_miss (ra s2) = true /\ current_block (ra s2) = 0 /\
      hasError (fs s2) = true).
Proof.
  split.
  - eexists. split; [vm_compute; reflexivity |]. repeat split.
  - do 2 eexists. split; [vm_compute; reflexivity |].
    do 3 (split; [reflexivity |]).
    split; [vm_compute; reflexivity |]. repeat split.
Qed.



(** C8 at work: 70 releases and two acquisitions on a new object; a
    release into a pool of 64; an acquisition from a pool of three; a
    release into a pool of three followed by an acquisition. *)
Lemma C8_pool_idle_bound_witness :
  idle_count (pool_run (map (fun k => Release (Buf k)) (seq 0 70)
                          ++ [Acquire; Acquire])
                       (Filesystem_new (demo_dev []) false))
  <= max_idle_buffers /\
  (buffers (releaseBuffer (Buf 99) (demo_pool 64)) = buffers (demo_pool 64) /\
   releaseBuffer (Buf 99) (demo_pool 64) = delete_buffer (Buf 99) (demo_pool 64)) /\
  (deleted (releaseBuffer (Buf 99) (demo_pool 64)) = 99%nat :: deleted (demo_pool 64) /\
   idle_count (releaseBuffer (Buf 99) (demo_pool 64)) = max_idle_buffers /\
   next_addr (releaseBuffer (Buf 99) (demo_pool 64)) = next_addr (demo_pool 64)) /\
  (buffers (releaseBuffer (Buf 99) (demo_pool 3)) = buffers (demo_pool 3) ++ [Buf 99] /\
   deleted (releaseBuffer (Buf 99) (demo_pool 3)) = deleted (demo_pool 3)) /\
  (fst (getBuffer (demo_pool 3)) = last (buffers (demo_pool 3)) NULL /\
   buffers (snd (getBuffer (demo_pool 3))) = removelast (buffers (demo_pool 3))) /\
  getBuffer (releaseBuffer (Buf 99) (demo_pool 3)) = (Buf 99, demo_pool 3).
Proof.
  destruct C8_pool_idle_bound as (H1 & H2 & H2a & H2b & H3 & H4).
  split; [| split; [| split; [| split; [| split]]]].
  - apply H1. apply Z.leb_le. vm_compute. reflexivity.
  - apply H2. vm_compute. reflexivity.
  - apply H2a. vm_compute. reflexivity.
  - apply H2b. apply Z.ltb_lt. vm_compute. reflexivity.
  - apply H3. vm_compute. discriminate.
  - apply H4. apply Z.ltb_lt. vm_compute. reflexivity.
Defined.

(** C9 as stated fails: with ten addressable blocks and a two-byte bitmap
    whose padding bits are set, [hasBlock(10)] is [true]; [hasBlock(16)]
    reads the byte after the bitmap; a negative index shifts by more than
    the width of an [int] or reads far outside the bitmap. *)
Lemma C9_out_of_range_counterexample :
  total_blocks 4096 40960 = Some 10 /\
  hasBlock [255; 255] 10 = Some true /\
  hasBlock [255; 255] 16 = None /\
  hasBlock [255; 255] (-1) = None /\
  hasBlock [255; 255] (-8) = None.
Proof. repeat split; vm_compute; reflexivity. Qed.

(** C9 as amended, at block 8 of ten blocks. *)
Lemma C9_hasBlock_in_range_witness :
  hasBlock [5; 1] 8 = Some (Z.testbit (nth (Z.to_nat (8 / 8)) [5; 1] 0) (8 mod 8)).
Proof.
  apply (C9_hasBlock_in_range [5; 1] 4096 40960 8 10).
  - reflexivity.
  - lia.
  - simpl. lia.
  - lia.
Defined.

(** C10 at work: blocks 0 and 1 are marked, the device delivers block 0
    and nothing more.  The call returns the list [0], has used one
    destination buffer, and leaves the error flag set for block 1. *)
Lemma C10_readBlocks_witness :
  match readBlocks demo_bitmap 4 0 2 [[0; 0; 0; 0]; [0; 0; 0; 0]] 0
                   (Filesystem_new (demo_dev [4]) false) with
  | Some st =>
      rb_ret st = [0] /\ rb_currbuf st = length (rb_ret st) /\
      hasError (rb_fs st) = true
  | None => False
  end.
Proof.
  destruct (C10_readBlocks_failed_block_skipped demo_bitmap 4) as [_ H].
  destruct (readBlocks demo_bitmap 4 0 2 _ 0 _) as [st |] eqn:E.
  - destruct (H _ _ _ _ _ _ E) as (H1 & _ & H3).
    assert (Hret : rb_ret st = [0]).
    { vm_compute in E. inversion E. reflexivity. }
    split; [exact Hret |]. split; [exact H1 |].
    apply (H3 1); [simpl; lia | reflexivity |].
    rewrite Hret. intros [F | []]. discriminate F.
  - vm_compute in E. discriminate E.
Defined.

(** ** The further properties at work *)

(** Ten blocks of 4096 bytes, blocks 0, 2, 4, 6 and 8 to 15 marked in the
    bitmap: blocks 10 to 15 do not exist and are not counted. *)
Lemma X1_calculateUsedSpace_witness :
  calculateUsedSpace [85; 255] 4096 40960
  = Some (count_set [85; 255] (Z.to_nat 10) 0 * 4096) /\
  0 <= count_set [85; 255] (Z.to_nat 10) 0 <= 10.
Proof.
  apply (X1_calculateUsedSpace_counts_blocks [85; 255] 4096 40960 10).
  - reflexivity.
  - lia.
  - lia.
  - simpl. lia.
Defined.

(** A volume of 16 TiB in blocks of 512 bytes has [2^35] blocks. *)
Lemma X2_calculateUsedSpace_wraps_witness :
  calculateUsedSpace [255] 512 (2 ^ 44) = Some 0.
Proof.
  apply (X2_calculateUsedSpace_wraps [255] 512 (2 ^ 44) (2 ^ 35)).
  - reflexivity.
  - lia.
  - vm_compute. reflexivity.
Defined.

(** Ten blocks and padding bits set: from block 9 the search answers 10,
    the index after the last block. *)
Lemma X3_next_used_block_witness :
  exists n,
    total_blocks 4096 40960 = Some n /\
    ((10 = -1 /\
      forall j, 9 < j <= n -> hasBlock [255; 255] j = Some false) \/
     (9 < 10 <= n /\
      hasBlock [255; 255] 10 = Some true /\
      forall j, 9 < j < 10 -> hasBlock [255; 255] j = Some false)).
Proof.
  apply (X3_next_used_block_first_set [255; 255] 4096 40960 9 10).
  vm_compute. reflexivity.
Defined.

(** A cache with keys 1, 3 and 7, cleared for block 5. *)
Lemma X4_clearUnusedReadahead_witness :
  let '(m', f') :=
    clearUnusedReadahead 5 [(1, Buf 0); (3, Buf 1); (7, Buf 2)] (demo_pool 0) in
  map_find 3 m' = None /\ map_find 7 m' = Some (Buf 2).
Proof.
  destruct (clearUnusedReadahead 5 _ _) as [m' f'] eqn:E.
  assert (Hasc : keys_ascending [(1, Buf 0); (3, Buf 1); (7, Buf 2)]).
  { cbn. repeat split; intros e He; cbn in He;
      repeat (destruct He as [<- | He]; [cbn; lia |]); destruct He. }
  destruct (X4_clearUnusedReadahead_keeps_upper_keys
              5 [(1, Buf 0); (3, Buf 1); (7, Buf 2)] m' (demo_pool 0) f' Hasc E)
    as (_ & H & _).
  split; [rewrite (H 3) | rewrite (H 7)]; reflexivity.
Defined.

(** The buffer of key 3, evicted by the same call. *)
Lemma X5_clearUnusedReadahead_witness :
  let '(m', f') :=
    clearUnusedReadahead 5 [(1, Buf 0); (3, Buf 1); (7, Buf 2)] (demo_pool 0) in
  In (Buf 1) (buffers f') \/ In 1%nat (deleted f').
Proof.
  destruct (clearUnusedReadahead 5 _ _) as [m' f'] eqn:E.
  assert (Hasc : keys_ascending [(1, Buf 0); (3, Buf 1); (7, Buf 2)]).
  { cbn. repeat split; intros e He; cbn in He;
      repeat (destruct He as [<- | He]; [cbn; lia |]); destruct He. }
  destruct (X5_clearUnusedReadahead_releases_evicted
              5 [(1, Buf 0); (3, Buf 1); (7, Buf 2)] m' (demo_pool 0) f' Hasc E)
    as (H & _).
  apply (H 3 1%nat); [reflexivity | lia].
Defined.

(** A pool of two idle buffers and a cache that holds buffer 5. *)
Lemma X6_Filesystem_destroy_witness :
  In 1%nat (deleted (Filesystem_destroy
                       (Some (mkRA [(4, Buf 5)] false (-1) true)) (demo_pool 2))) /\
  In 5%nat (deleted (Filesystem_destroy
                       (Some (mkRA [(4, Buf 5)] false (-1) true)) (demo_pool 2))).
Proof.
  destruct (X6_Filesystem_destroy_deletes_all
              (Some (mkRA [(4, Buf 5)] false (-1) true)) (demo_pool 2))
    as (H1 & H2 & _).
  split.
  - apply H1. vm_compute. auto.
  - apply (H2 _ 4 5%nat eq_refl). reflexivity.
Defined.

(** Both blocks of the device are read without error. *)
Lemma X7_readBlocks_no_leak_witness :
  match readBlocks demo_bitmap 4 0 2 [[0; 0; 0; 0]; [0; 0; 0; 0]] 0
                   (Filesystem_new (demo_dev [4; 4]) false) with
  | Some st =>
      all_accounted [] (rb_fs st) /\
      forall a, (a < next_addr (rb_fs st))%nat ->
                In a (deleted (Filesystem_destroy None (rb_fs st)))
  | None => False
  end.
Proof.
  destruct (readBlocks demo_bitmap 4 0 2 _ 0 _) as [st |] eqn:E.
  - apply (X7_readBlocks_without_error_leaks_nothing _ _ _ _ _ _ _ _ E).
    + pose proof E as E'. vm_compute in E'. inversion E'. reflexivity.
    + intros a Ha. cbn in Ha. lia.
  - vm_compute in E. discriminate E.
Defined.

(** A block delivered in three fragments. *)
Lemma X8_readFromDev_witness :
  match readFromDev (Buf 0) 4 (Filesystem_new (demo_dev [1; 2; 4]) false) with
  | Some (ok, f') =>
      ok = true ->
      firstn (Z.to_nat 4) (contents f' 0%nat)
      = firstn (Z.to_nat 4) (skipn (Z.to_nat 0) demo_data)
  | None => False
  end.
Proof.
  destruct (readFromDev (Buf 0) 4 _) as [[ok f'] |] eqn:E.
  - intro Hok.
    destruct (X8_readFromDev_outcomes
                0%nat 4 (Filesystem_new (demo_dev [1; 2; 4]) false) f' ok
                ltac:(lia) ltac:(cbn; lia) E)
      as [_ H].
    destruct (H Hok) as (_ & _ & Hc & _). exact Hc.
  - vm_compute in E. discriminate E.
Defined.

(** Block 1 of the device, read through the direct path. *)
Lemma X9_readBlock_witness :
  match readBlock demo_bitmap 4 1 (Filesystem_new (demo_dev [4]) false) with
  | RB_return (Buf a) f' =>
      firstn (Z.to_nat 4) (contents f' a) = device_block 4 1 (demo_dev [4])
  | _ => False
  end.
Proof.
  destruct (readBlock demo_bitmap 4 1 _) as [[| a] f' | b |] eqn:E;
    try (vm_compute in E; discriminate E).
  destruct (X9_readBlock_returns_device_block demo_bitmap 4 1 _ f' a
              ltac:(lia) ltac:(lia) E) as (_ & _ & H & _).
  exact H.
Defined.

(** A device that delivers nothing. *)
Lemma X10_readBlock_null_witness :
  match readBlock demo_bitmap 4 0 (Filesystem_new (demo_dev []) false) with
  | RB_return NULL f' =>
      hasError f' = true /\ (read_calls (dev f') = 0%nat \/
                             read_calls (dev f') = 22%nat)
  | _ => False
  end.
Proof.
  destruct (readBlock demo_bitmap 4 0 _) as [[| a] f' | b |] eqn:E;
    try (vm_compute in E; discriminate E).
  destruct (X10_readBlock_null_outcomes demo_bitmap 4 0 _ f' E)
    as [[Hb _] | [(_ & He & _ & Hr & _) | (_ & He & Hr & _)]].
  - vm_compute in Hb. discriminate Hb.
  - split; [exact He | left; exact Hr].
  - split; [exact He | right; exact Hr].
Defined.

(** Eight blocks, none of them marked. *)
Lemma X11_readBlocks_absent_witness :
  readBlocks [0] 4 0 8 [[1; 2; 3; 4]] 0 (Filesystem_new (demo_dev [4]) true)
  = Some (mkRBS 0 [] [[1; 2; 3; 4]] (Filesystem_new (demo_dev [4]) true)).
Proof.
  apply (X11_readBlocks_absent_range [0] 4 0 8).
  intros j Hj.
  assert (Hc : j = 0 \/ j = 1 \/ j = 2 \/ j = 3 \/ j = 4 \/ j = 5 \/ j = 6 \/ j = 7)
    by (cbn in Hj; lia).
  repeat (destruct Hc as [-> | Hc]; [reflexivity |]). subst j. reflexivity.
Defined.

(** Both blocks are returned, in order. *)
Lemma X12_readBlocks_ascending_witness :
  match readBlocks demo_bitmap 4 0 2 [[0; 0; 0; 0]; [0; 0; 0; 0]] 0
                   (Filesystem_new (demo_dev [4; 4]) false) with
  | Some st => nth 0 (rb_ret st) 0 < nth 1 (rb_ret st) 0
  | None => False
  end.
Proof.
  destruct (readBlocks demo_bitmap 4 0 2 _ 0 _) as [st |] eqn:E.
  - apply (X12_readBlocks_list_ascending demo_bitmap 4 0 2 _ 0 _ st E).
    pose proof E as E'. vm_compute in E'. inversion E'. cbn. lia.
  - vm_compute in E. discriminate E.
Defined.

(** The second destination buffer receives block 1 at offset 1. *)
Lemma X13_readBlocks_destinations_witness :
  match readBlocks demo_bitmap 4 0 2 [[0; 0; 0; 0; 0]; [9; 9; 9; 9; 9]] 1
                   (Filesystem_new (demo_dev [4; 4]) false) with
  | Some st =>
      exists dst,
        nth_error [[0; 0; 0; 0; 0]; [9; 9; 9; 9; 9]] 1 = Some dst /\
        (1 + Z.to_nat 4 <= length dst)%nat /\
        nth_error (rb_dests st) 1
        = Some (firstn 1 dst
                  ++ device_block 4 (nth 1 (rb_ret st) 0)
                                  (dev (Filesystem_new (demo_dev [4; 4]) false))
                  ++ skipn (1 + Z.to_nat 4) dst)
  | None => False
  end.
Proof.
  destruct (readBlocks demo_bitmap 4 0 2 _ 1 _) as [st |] eqn:E.
  - destruct (X13_readBlocks_fills_destinations demo_bitmap 4 0 2 _ 1 _ st
                ltac:(lia) ltac:(lia) E) as (_ & H & _).
    apply H. pose proof E as E'. vm_compute in E'. inversion E'. cbn. lia.
  - vm_compute in E. discriminate E.
Defined.

(** A task paused with a cache of 5120 entries. *)
Lemma X14_stop_backpressure_witness :
  exists s',
    run demo_bitmap 4 8 [E_stop; E_task false; E_task true]
        (demo_system (full_cache 5120) 5120 false None T_bp_wait []) = Some s' /\
    task s' = T_exit /\ mutex s' = None /\
    do_stop (ra s') = true /\
    read_blocks (ra s')
    = read_blocks (ra (demo_system (full_cache 5120) 5120 false None T_bp_wait [])).
Proof.
  apply (X14_stop_ends_backpressure_wait demo_bitmap 4 8 false true);
    reflexivity.
Defined.

(** The same pause, and a thread that asks for block 6000. *)
Lemma X15_miss_backpressure_witness :
  exists s',
    run demo_bitmap 4 8
        [E_caller 0; E_task false; E_task false; E_task false; E_task false]
        (demo_system (full_cache 5120) 5120 false (Some (Caller 0)) T_bp_wait
                     [(6000, G_loop NULL)]) = Some s' /\
    task s' = T_stop2 /\
    current_block (ra s') = 6000 /\ readahead_miss (ra s') = true /\
    read_blocks (ra s')
    = read_blocks (ra (demo_system (full_cache 5120) 5120 false
                                   (Some (Caller 0)) T_bp_wait
                                   [(6000, G_loop NULL)])) /\
    nth_error (callers s') 0 = Some (6000, G_wait NULL).
Proof.
  apply (X15_miss_overrides_backpressure demo_bitmap 4 8 false).
  - reflexivity.
  - reflexivity.
  - vm_compute. reflexivity.
  - reflexivity.
  - discriminate.
Defined.

(** The machine after a request for block 0 and eight moves of the task. *)
Lemma X16_never_serves_witness :
  match run demo_bitmap 4 8
            [E_task false; E_task false; E_task false; E_task false;
             E_call 0; E_caller 0; E_caller 0;
             E_task false; E_task false; E_task false; E_task false;
             E_task false; E_task false; E_task false; E_task false]
            (System_new (demo_dev [])) with
  | Some s =>
      read_blocks (ra s) = [] /\
      (forall buf, task s <> T_relock buf) /\
      (forall i b pc,
          nth_error (callers s) i = Some (b, pc) ->
          hasBlock demo_bitmap b = Some true /\
          (pc = G_lock \/ pc = G_loop NULL \/ pc = G_wait NULL))
  | None => False
  end.
Proof.
  destruct (run demo_bitmap 4 8 _ _) as [s |] eqn:E.
  - apply (X16_readahead_never_serves demo_bitmap 4 8 (demo_dev [])).
    eapply run_reachable; [apply reachable_new | exact E].
  - vm_compute in E. discriminate E.
Defined.

(** The task at line 106 with block 0 as target and in the cache. *)
Lemma X17_advance_loop_witness :
  (task (task_run demo_bitmap 4 8 false 2
           (demo_system [(0, Buf 0)] 0 false (Some Task) T_stop2 [])) = T_found /\
   ra (task_run demo_bitmap 4 8 false 2
         (demo_system [(0, Buf 0)] 0 false (Some Task) T_stop2 []))
   = ra (demo_system [(0, Buf 0)] 0 false (Some Task) T_stop2 []) /\
   fs (task_run demo_bitmap 4 8 false 2
         (demo_system [(0, Buf 0)] 0 false (Some Task) T_stop2 []))
   = fs (demo_system [(0, Buf 0)] 0 false (Some Task) T_stop2 [])) /\
  (forall n,
      in_advance_loop
        (task (task_run demo_bitmap 4 8 true (S n)
                 (demo_system [(0, Buf 0)] 0 false (Some Task) T_stop2 [])))
      = true).
Proof.
  apply (X17_advance_loop_blind demo_bitmap 4 8); reflexivity.
Defined.

(** Block 0 is delivered, block 1 is not. *)
Lemma X18_error_flag_witness :
  match readBlocks demo_bitmap 4 0 2 [[0; 0; 0; 0]; [0; 0; 0; 0]] 0
                   (Filesystem_new (demo_dev [4]) false) with
  | Some st =>
      hasError (rb_fs st) = true <->
      exists x, 0 <= x < 0 + Z.of_nat 2 /\ hasBlock demo_bitmap x = Some true /\
                ~ In x (rb_ret st)
  | None => False
  end.
Proof.
  destruct (readBlocks demo_bitmap 4 0 2 _ 0 _) as [st |] eqn:E.
  - destruct (X18_readBlocks_error_flag_exact _ _ _ _ _ _ _ _ E) as [_ H].
    apply H. reflexivity.
  - vm_compute in E. discriminate E.
Defined.
